(** * Outlook MCP server: token lifecycle and authenticated Graph requests

    A shallow embedding of [src/auth/token_service.py] (module [Auth]) and of
    the request layer of [src/server.py] (module [Server]), with the
    properties the specification states about them.

    Effects are written in a state-and-exception monad over an explicit
    world: the credential table, the wall clock and the identity provider
    for [Auth]; the Graph endpoint and the log of requests for [Server].
    The [while] loop of [graph_get_paginated] may run forever, so it is
    driven by fuel and exhaustion is reported as [OutOfFuel]. *)

From stdpp Require Import base option list gmap strings pretty.
From Stdlib Require Import ZArith Lia.

Local Open Scope Z_scope.

(** ** Exceptions and outcomes *)

(** The Python exceptions the modelled code raises or lets through. *)
Inductive exn : Type :=
| TokenServiceError (message : string) (status_code : Z)
| ToolError (message : string)
| KeyError (key : string)
| HTTPError            (* any httpx transport-level exception *)
| JSONDecodeError      (* response.json() on a body that is not JSON *)
| OverflowError        (* datetime arithmetic that leaves the range *)
| DataError.           (* asyncpg cannot encode a query argument *)

Inductive outcome (A : Type) : Type :=
| Ok (a : A)
| Raise (e : exn)
| OutOfFuel.

Arguments Ok {A} a.
Arguments Raise {A} e.
Arguments OutOfFuel {A}.

(** ** The monad *)

Definition ST (W A : Type) : Type := W -> outcome A * W.

Definition ret {W A} (a : A) : ST W A := fun w => (Ok a, w).

Definition raise {W A} (e : exn) : ST W A := fun w => (Raise e, w).

Definition diverge {W A} : ST W A := fun w => (OutOfFuel, w).

Definition bind {W A B} (m : ST W A) (k : A -> ST W B) : ST W B :=
  fun w =>
    match m w with
    | (Ok a, w') => k a w'
    | (Raise e, w') => (Raise e, w')
    | (OutOfFuel, w') => (OutOfFuel, w')
    end.

(** [try: m except Exception: h]. Running out of fuel is not an exception. *)
Definition try_except {W A} (m : ST W A) (h : exn -> ST W A) : ST W A :=
  fun w =>
    match m w with
    | (Raise e, w') => h e w'
    | r => r
    end.

Notation "x <- m ;; k" := (bind m (fun x => k))
  (at level 63, m at next level, right associativity).
Notation "m ;;; k" := (bind m (fun _ => k))
  (at level 63, right associativity).

Ltac st_unfold :=
  unfold bind, ret, raise, try_except, diverge in *.

(** Python truthiness of an [Optional[str]]. *)
Definition truthy (o : option string) : bool :=
  match o with
  | Some s => negb (bool_decide (s = ""))
  | None => false
  end.

(** ** token_service.py *)

Module Auth.

(** *** datetime

    A [datetime] is its wall-clock reading in microseconds since the epoch
    together with its [tzinfo]: [None] for a naive value, [Some off] for an
    aware one whose UTC offset is [off] microseconds. *)
Record datetime : Type := {
  wall : Z;
  tzinfo : option Z
}.

Definition at_utc (us : Z) : datetime := {| wall := us; tzinfo := Some 0 |}.

(** [dt.replace(tzinfo=timezone.utc)]: the wall-clock fields are kept. *)
Definition replace_tzinfo_utc (dt : datetime) : datetime :=
  {| wall := wall dt; tzinfo := Some 0 |}.

(** The instant an aware datetime denotes, in UTC microseconds. *)
Definition instant (dt : datetime) : Z := wall dt - default 0 (tzinfo dt).

(** [a - b] on aware datetimes: a [timedelta], in microseconds. *)
Definition dt_sub (a b : datetime) : Z := instant a - instant b.

(** [datetime.min] and [datetime.max], the first microsecond of year 1 and
    the last of year 9999. *)
Definition DATETIME_MIN : Z := -62135596800000000.

Definition DATETIME_MAX : Z := 253402300799999999.

(** [timedelta(seconds=s)], in microseconds. [None] is the [OverflowError]
    raised when the number of days leaves -999999999..999999999. *)
Definition timedelta_seconds (s : Z) : option Z :=
  if (-999999999 <=? s / 86400) && (s / 86400 <=? 999999999)
  then Some (s * 1000000) else None.

(** [dt + td]. [None] is the [OverflowError] raised when the result leaves
    [datetime.min]..[datetime.max]. *)
Definition dt_add (dt : datetime) (td : Z) : option datetime :=
  if (DATETIME_MIN <=? wall dt + td) && (wall dt + td <=? DATETIME_MAX)
  then Some {| wall := wall dt + td; tzinfo := tzinfo dt |} else None.

(** [dt + timedelta(seconds=s)]. *)
Definition dt_add_seconds (dt : datetime) (s : Z) : option datetime :=
  match timedelta_seconds s with
  | Some td => dt_add dt td
  | None => None
  end.

(** [td.total_seconds() < s] for an integer [s]. [total_seconds] is the
    correctly rounded quotient of the integer microsecond count by 10^6, and
    [s] is exactly representable, so the floating-point comparison agrees
    with the integer one. *)
Definition total_seconds_lt (td s : Z) : bool := td <? s * 1000000.

(** *** The world *)

(** A row of [oauth_connections]. Token columns hold ciphertext. *)
Record row : Type := {
  id : string;
  user_id : string;
  provider : string;
  access_token : string;
  refresh_token : string;
  expires_at : datetime;
  provider_metadata : string;
  is_active : bool;
  created_at : Z;
  updated_at : Z;
  last_used_at : option Z
}.

(** The form posted to the token endpoint. *)
Record token_request : Type := {
  req_url : string;
  grant_type : string;
  req_refresh_token : string;
  req_client_id : string;
  req_client_secret : string;
  scope : string
}.

(** The JSON object of a token response, through the keys the code reads. *)
Record token_data : Type := {
  data_access_token : option string;
  data_refresh_token : option string;
  data_expires_in : option Z
}.

Inductive token_response : Type :=
| NoResponse
| Response (status_code : Z) (json : option token_data).

(** [store] is the table; [clock] gives the successive readings of the
    time ([datetime.now] and SQL [NOW()]), [ticks] counts the readings
    taken; [idp] is the identity provider, whose answer may depend on how
    many requests it has seen; [idp_log] lists the requests sent to it;
    [locks] is the key set of [self._locks]. *)
Record world : Type := {
  store : list row;
  clock : nat -> Z;
  ticks : nat;
  idp : nat -> token_request -> token_response;
  idp_log : list token_request;
  locks : gset string
}.

Definition set_store (f : list row -> list row) (w : world) : world :=
  {| store := f (store w); clock := clock w; ticks := ticks w;
     idp := idp w; idp_log := idp_log w; locks := locks w |}.

Definition set_ticks (n : nat) (w : world) : world :=
  {| store := store w; clock := clock w; ticks := n;
     idp := idp w; idp_log := idp_log w; locks := locks w |}.

Definition set_idp_log (l : list token_request) (w : world) : world :=
  {| store := store w; clock := clock w; ticks := ticks w;
     idp := idp w; idp_log := l; locks := locks w |}.

Definition set_locks (s : gset string) (w : world) : world :=
  {| store := store w; clock := clock w; ticks := ticks w;
     idp := idp w; idp_log := idp_log w; locks := s |}.

(** The Fernet cipher, with [encode]/[decode] folded in: [decrypt] is [None]
    whenever the [try] block of [get_token] would raise. The random IV of
    [encrypt] is not modelled. *)
Record Cipher : Type := {
  encrypt : string -> string;
  decrypt : string -> option string
}.

Record TokenService : Type := {
  cipher : Cipher;
  client_id : string;
  client_secret : string;
  tenant_id : string
}.

Record MicrosoftToken : Type := {
  tok_access_token : string;
  tok_user_id : string;
  tok_expires_at : option datetime
}.

Definition PROVIDER : string := "microsoft".

(** *** Primitive effects *)

(** One reading of the clock, in microseconds. *)
Definition read_clock : ST world Z :=
  fun w => (Ok (clock w (ticks w)), set_ticks (S (ticks w)) w).

(** [datetime.now(timezone.utc)] *)
Definition datetime_now_utc : ST world datetime :=
  t <- read_clock ;; ret (at_utc t).

(** [if user_id not in self._locks: self._locks[user_id] = asyncio.Lock()] *)
Definition ensure_lock (user : string) : ST world unit :=
  fun w => (Ok tt, set_locks ({[ user ]} ∪ locks w) w).

(** [ORDER BY created_at DESC LIMIT 1]: among equal creation times the
    earliest row of the table is taken. *)
Definition newest (best : option row) (r : row) : option row :=
  match best with
  | None => Some r
  | Some b => if created_at b <? created_at r then Some r else Some b
  end.

Definition matches (user : string) (r : row) : bool :=
  bool_decide (user_id r = user) && bool_decide (provider r = PROVIDER)
  && is_active r.

Definition select_connection (user : string) (rows : list row) : option row :=
  foldl newest None (filter (fun r => matches user r = true) rows).

Definition fetchrow (user : string) : ST world (option row) :=
  fun w => (Ok (select_connection user (store w)), w).

(** [UPDATE oauth_connections SET ... WHERE id = $n] *)
Definition update_where_id (cid : string) (f : row -> row) (rows : list row)
  : list row :=
  map (fun r => if bool_decide (id r = cid) then f r else r) rows.

Definition with_last_used (t : Z) (r : row) : row :=
  {| id := id r; user_id := user_id r; provider := provider r;
     access_token := access_token r; refresh_token := refresh_token r;
     expires_at := expires_at r; provider_metadata := provider_metadata r;
     is_active := is_active r; created_at := created_at r;
     updated_at := updated_at r; last_used_at := Some t |}.

Definition with_tokens (a r' : string) (e : datetime) (t : Z) (r : row) : row :=
  {| id := id r; user_id := user_id r; provider := provider r;
     access_token := a; refresh_token := r';
     expires_at := e; provider_metadata := provider_metadata r;
     is_active := is_active r; created_at := created_at r;
     updated_at := t; last_used_at := last_used_at r |}.

(** [UPDATE oauth_connections SET last_used_at = NOW() WHERE id = $1] *)
Definition execute_touch (cid : string) : ST world unit :=
  t <- read_clock ;;
  fun w => (Ok tt, set_store (update_where_id cid (with_last_used t)) w).

(** The expiry column has one type: TIMESTAMP, without time zone, when the
    table holds a naive value, TIMESTAMPTZ otherwise. *)
Definition naive_expiry_column (rows : list row) : bool :=
  existsb (fun r => bool_decide (tzinfo (expires_at r) = None)) rows.

(** [UPDATE oauth_connections SET access_token = $1, refresh_token = $2,
    expires_at = $3, updated_at = NOW() WHERE id = $4]. asyncpg encodes
    [$3] for the type of the column before it sends the statement: an aware
    datetime for a TIMESTAMP column is a [DataError]. *)
Definition execute_store_tokens (a r : string) (e : datetime) (cid : string)
  : ST world unit :=
  fun w =>
    if naive_expiry_column (store w) && bool_decide (tzinfo e <> None)
    then (Raise DataError, w)
    else
      (t <- read_clock ;;
       fun w' =>
         (Ok tt, set_store (update_where_id cid (with_tokens a r e t)) w')) w.

(** [client.post(token_url, data=...)] *)
Definition post (rq : token_request) : ST world (Z * option token_data) :=
  fun w =>
    let w' := set_idp_log (idp_log w ++ [rq]) w in
    match idp w (length (idp_log w)) rq with
    | NoResponse => (Raise HTTPError, w')
    | Response s j => (Ok (s, j), w')
    end.

Definition refresh_request (self : TokenService) (refresh : string)
  : token_request :=
  {| req_url := "https://login.microsoftonline.com/" +:+ tenant_id self
                +:+ "/oauth2/v2.0/token";
     grant_type := "refresh_token";
     req_refresh_token := refresh;
     req_client_id := client_id self;
     req_client_secret := client_secret self;
     scope := "offline_access User.Read Mail.Read" |}.

(** *** _refresh_token *)

Definition _refresh_token (self : TokenService) (refresh : string)
    (connection_id : string) : ST world string :=
  response <- post (refresh_request self refresh) ;;
  if negb (fst response =? 200) then
    raise (TokenServiceError "Token refresh failed. Please reconnect." 401)
  else
    data <- match snd response with
            | Some d => ret d
            | None => raise JSONDecodeError
            end ;;
    new_access <- match data_access_token data with
                  | Some a => ret a
                  | None => raise (KeyError "access_token")
                  end ;;
    let new_refresh := default refresh (data_refresh_token data) in
    let expires_in := default 3600 (data_expires_in data) in
    let encrypted_access := encrypt (cipher self) new_access in
    let encrypted_refresh := encrypt (cipher self) new_refresh in
    now <- datetime_now_utc ;;
    new_expires_at <- match dt_add_seconds now expires_in with
                      | Some e => ret e
                      | None => raise OverflowError
                      end ;;
    execute_store_tokens encrypted_access encrypted_refresh new_expires_at
                         connection_id ;;;
    ret new_access.

(** *** get_token *)

Definition get_token (self : TokenService) (user : string)
  : ST world MicrosoftToken :=
  ensure_lock user ;;;
  found <- fetchrow user ;;
  match found with
  | None =>
      raise (TokenServiceError
        "No Microsoft connection found. Please connect your Outlook account."
        404)
  | Some r =>
      plain <- match decrypt (cipher self) (access_token r),
                     decrypt (cipher self) (refresh_token r) with
               | Some a, Some rt => ret (a, rt)
               | _, _ =>
                   raise (TokenServiceError
                     "Token decryption failed. Please reconnect." 500)
               end ;;
      let expires := expires_at r in
      let connection_id := id r in
      now <- datetime_now_utc ;;
      let expires :=
        if tzinfo expires is None then replace_tzinfo_utc expires
        else expires in
      access <- (if total_seconds_lt (dt_sub expires now) 300
                 then _refresh_token self (snd plain) connection_id
                 else ret (fst plain)) ;;
      execute_touch connection_id ;;;
      ret {| tok_access_token := access; tok_user_id := user;
             tok_expires_at := Some expires |}
  end.

(** *** Vocabulary of the statements *)

(** The expiry as [get_token] compares it: a naive value is read as UTC. *)
Definition normalized (e : datetime) : datetime :=
  if tzinfo e is None then replace_tzinfo_utc e else e.

(** Remaining lifetime of a row's expiry at time [now], in microseconds. *)
Definition remaining (r : row) (now : Z) : Z :=
  instant (normalized (expires_at r)) - now.

(** The columns the token manager must leave alone. *)
Definition same_identity (r r' : row) : Prop :=
  id r' = id r /\ user_id r' = user_id r /\ provider r' = provider r /\
  provider_metadata r' = provider_metadata r /\
  is_active r' = is_active r /\ created_at r' = created_at r.

(** What an update keyed by [cid] may do to a row. *)
Definition touches (cid : string) (r r' : row) : Prop :=
  same_identity r r' /\ (id r <> cid -> r' = r).

(** What [get_token] may do to a row, [canon] being the canonical row. *)
Definition row_frame (canon : option row) (r r' : row) : Prop :=
  same_identity r r' /\
  match canon with
  | Some c => id r <> id c -> r' = r
  | None => r' = r
  end.

(** The failures of [get_token]. *)
Definition NOT_CONNECTED : exn :=
  TokenServiceError
    "No Microsoft connection found. Please connect your Outlook account." 404.

Definition DECRYPTION_FAILED : exn :=
  TokenServiceError "Token decryption failed. Please reconnect." 500.

Definition REFRESH_FAILED : exn :=
  TokenServiceError "Token refresh failed. Please reconnect." 401.

(** The world after the lock is registered and the row is fetched. *)
Definition locked (user : string) (w : world) : world :=
  set_locks ({[ user ]} ∪ locks w) w.

(** The expiry "[now] plus [s] seconds" can be formed: the [timedelta] has
    an admissible number of days and the sum is a [datetime]. *)
Definition expiry_in_range (now s : Z) : Prop :=
  -999999999 <= s / 86400 <= 999999999 /\
  DATETIME_MIN <= now + s * 1000000 <= DATETIME_MAX.

(** Every expiry of the table carries a time zone: the column is
    TIMESTAMPTZ. *)
Definition aware_expiries (rows : list row) : Prop :=
  Forall (fun r => tzinfo (expires_at r) <> None) rows.

End Auth.

(** ** server.py *)

Module Server.

(** *** Data *)

(** A query-parameter value: [$top] is an [int], the others are [str]. *)
Inductive pval : Type :=
| PInt (z : Z)
| PStr (s : string).

(** A [**params] dict, in insertion order. *)
Definition dict : Type := list (string * pval).

Fixpoint dict_set (k : string) (v : pval) (d : dict) : dict :=
  match d with
  | [] => [(k, v)]
  | (k', v') :: d' =>
      if bool_decide (k' = k) then (k, v) :: d' else (k', v') :: dict_set k v d'
  end.

Fixpoint dict_get (k : string) (d : dict) : option pval :=
  match d with
  | [] => None
  | (k', v) :: d' => if bool_decide (k' = k) then Some v else dict_get k d'
  end.

(** Graph resources (messages, mail folders), through the keys the code
    reads; [None] stands for an absent key. *)
Record emailAddress : Type := {
  name : option string;
  address : option string
}.

Record recipient : Type := {
  emailAddress_of : option emailAddress
}.

Record item : Type := {
  item_id : option string;
  subject_of : option string;
  from_of : option recipient;
  receivedDateTime : option string;
  isRead : option bool
}.

(** The response envelope: the ["value"] collection and ["@odata.nextLink"]. *)
Record envelope : Type := {
  value : option (list item);
  nextLink : option string
}.

Record request : Type := {
  url : string;
  authorization : string;
  params : option dict;
  timeout : Z
}.

Inductive response : Type :=
| NoResponse
| Response (status_code : Z) (json : option envelope).

(** [graph] is the remote API: its answer to a request may depend on how
    many requests came before. [http_log] lists the requests issued. [calls]
    is a ghost record of the arguments of every [graph_get] invocation. *)
Record world : Type := {
  graph : nat -> request -> response;
  http_log : list request;
  calls : list (string * dict)
}.

(** The state bound to the execution context by the middleware. *)
Abbreviation Context := (gmap string string).

Definition get_state (ctx : Context) (key : string) : option string :=
  ctx !! key.

Definition WELL_KNOWN_FOLDERS : gmap string string :=
  list_to_map
    [ ("inbox", "me/mailFolders/inbox/messages");
      ("drafts", "me/mailFolders/drafts/messages");
      ("sent", "me/mailFolders/sentItems/messages");
      ("deleted", "me/mailFolders/deletedItems/messages");
      ("junk", "me/mailFolders/junkemail/messages");
      ("archive", "me/mailFolders/archive/messages") ].

Definition INBOX : string := "me/mailFolders/inbox/messages".

Definition GRAPH_BASE_URL : string := "https://graph.microsoft.com/v1.0".

(** [settings.email_list_fields], at its default. *)
Definition email_list_fields : string :=
  "id,subject,from,toRecipients,ccRecipients,receivedDateTime,bodyPreview,hasAttachments,importance,isRead".

(** *** Primitive effects *)

Definition record_call (endpoint : string) (ps : dict) : ST world unit :=
  fun w => (Ok tt, {| graph := graph w; http_log := http_log w;
                      calls := calls w ++ [(endpoint, ps)] |}).

(** [client.get(url, headers=..., params=..., timeout=30)] *)
Definition client_get (rq : request) : ST world (Z * option envelope) :=
  fun w =>
    let w' := {| graph := graph w; http_log := http_log w ++ [rq];
                 calls := calls w |} in
    match graph w (length (http_log w)) rq with
    | NoResponse => (Raise HTTPError, w')
    | Response s j => (Ok (s, j), w')
    end.

(** *** graph_get *)

Definition AUTH_REQUIRED : string :=
  "Microsoft authentication required. Please connect your Outlook account.".

Definition SESSION_EXPIRED : string :=
  "Session expired. Please reconnect your Outlook account.".

Definition graph_get (ctx : Context) (endpoint : string) (ps : dict)
  : ST world envelope :=
  record_call endpoint ps ;;;
  let access_token := get_state ctx "microsoft_token" in
  if negb (truthy access_token) then raise (ToolError AUTH_REQUIRED)
  else
    let full := String.prefix "http" endpoint in
    let url := if full then endpoint
               else GRAPH_BASE_URL +:+ "/" +:+ endpoint in
    resp <- client_get
              {| url := url;
                 authorization := "Bearer " +:+ default "" access_token;
                 params := if negb full then Some ps else None;
                 timeout := 30 |} ;;
    if fst resp =? 401 then raise (ToolError SESSION_EXPIRED)
    else if 400 <=? fst resp then
      raise (ToolError ("Microsoft Graph API error: " +:+ pretty (fst resp)))
    else match snd resp with
         | Some body => ret body
         | None => raise JSONDecodeError
         end.

(** *** graph_get_paginated *)

Definition len {A} (l : list A) : Z := Z.of_nat (length l).

(** [l[:n]] *)
Definition slice_to {A} (l : list A) (n : Z) : list A :=
  if n <? 0 then take (Z.to_nat (len l + n)) l else take (Z.to_nat n) l.

(** The [while] loop, one unit of fuel per iteration. *)
Fixpoint paginate (fuel : nat) (ctx : Context) (max_count : Z)
    (all_items : list item) (current_endpoint : string)
    (current_params : dict) : ST world (list item) :=
  if negb (len all_items <? max_count) then ret all_items
  else
    match fuel with
    | O => diverge
    | S fuel' =>
        resp <- graph_get ctx current_endpoint current_params ;;
        let items := default [] (value resp) in
        let all_items := all_items ++ items in
        let next_link := nextLink resp in
        if negb (truthy next_link) || (max_count <=? len all_items)
        then ret all_items
        else paginate fuel' ctx max_count all_items
                      (default "" next_link) []
    end.

Definition graph_get_paginated (fuel : nat) (ctx : Context)
    (endpoint : string) (max_count : Z) (ps : dict) : ST world (list item) :=
  all_items <- paginate fuel ctx max_count [] endpoint ps ;;
  ret (slice_to all_items max_count).

(** *** resolve_folder *)

Definition lower_ascii (c : Ascii.ascii) : Ascii.ascii :=
  let n := Ascii.nat_of_ascii c in
  if ((65 <=? n) && (n <=? 90))%nat then Ascii.ascii_of_nat (n + 32) else c.

(** [str.lower()] on ASCII text: the letters A to Z are lowered and every
    other byte is kept. The case mapping of Unicode beyond ASCII is not
    modelled. *)
Fixpoint lower (s : string) : string :=
  match s with
  | EmptyString => EmptyString
  | String c s' => String (lower_ascii c) (lower s')
  end.

Definition resolve_folder (ctx : Context) (folder_name : string)
  : ST world string :=
  if bool_decide (folder_name = "") then ret INBOX
  else
    match WELL_KNOWN_FOLDERS !! lower folder_name with
    | Some endpoint => ret endpoint
    | None =>
        found <- try_except
          (resp <- graph_get ctx "me/mailFolders"
                     [("$filter",
                       PStr ("displayName eq '" +:+ folder_name +:+ "'"))] ;;
           match value resp with
           | Some (first :: _) =>
               match item_id first with
               | Some folder_id =>
                   ret (Some ("me/mailFolders/" +:+ folder_id +:+ "/messages"))
               | None => raise (KeyError "id")
               end
           | _ => ret None
           end)
          (fun _ => ret None) ;;
        match found with
        | Some endpoint => ret endpoint
        | None => ret INBOX
        end
    end.

(** *** Formatting *)

Definition nl : string := String (Ascii.ascii_of_nat 10) EmptyString.

Definition dq : string := String (Ascii.ascii_of_nat 34) EmptyString.

(** [sep.join(parts)] *)
Fixpoint join (sep : string) (parts : list string) : string :=
  match parts with
  | [] => ""
  | [p] => p
  | p :: rest => p +:+ sep +:+ join sep rest
  end.

(** [s.replace("T", " ")] *)
Fixpoint replace_T (s : string) : string :=
  match s with
  | EmptyString => EmptyString
  | String c s' =>
      String (if bool_decide (c = Ascii.ascii_of_nat 84)
              then Ascii.ascii_of_nat 32 else c) (replace_T s')
  end.

Definition nonempty_str (s : string) : bool := negb (bool_decide (s = "")).

Definition format_email_address (email_obj : option recipient) : string :=
  match email_obj with
  | Some {| emailAddress_of := Some addr |} =>
      let nm := default "" (name addr) in
      let ad := default "" (address addr) in
      if nonempty_str nm then nm +:+ " (" +:+ ad +:+ ")" else ad
  | _ => "Unknown"
  end.

(** The three lines of one entry of a listing. *)
Definition entry_lines (i : nat) (email : item) : list string :=
  let sender := format_email_address (from_of email) in
  let date :=
    replace_T (String.substring 0 19 (default "" (receivedDateTime email))) in
  let unread := if negb (default false (isRead email)) then "[UNREAD] "
                else "" in
  let subject := default "(no subject)" (subject_of email) in
  let email_id := default "" (item_id email) in
  [ pretty i +:+ ". " +:+ unread +:+ date +:+ " - From: " +:+ sender;
    "   Subject: " +:+ subject;
    "   ID: " +:+ email_id +:+ nl ].

(** [for i, email in enumerate(emails, i): lines.append(...)] *)
Fixpoint entries (i : nat) (emails : list item) : list string :=
  match emails with
  | [] => []
  | email :: rest => entry_lines i email ++ entries (S i) rest
  end.

Definition _format_search_results (emails : list item) (strategy : string)
  : string :=
  match emails with
  | [] => "No emails found matching your search criteria."
  | _ =>
      join nl
        (("Found " +:+ pretty (length emails) +:+ " emails (via " +:+ strategy
          +:+ "):" +:+ nl) :: entries 1 emails)
  end.

Definition format_listing (emails : list item) (folder : string) : string :=
  match emails with
  | [] => "No emails found in " +:+ folder +:+ "."
  | _ =>
      join nl
        (("Found " +:+ pretty (length emails) +:+ " emails in " +:+ folder
          +:+ ":" +:+ nl) :: entries 1 emails)
  end.

(** *** list_emails *)

(** Lines 237-247: the emails handed to the formatting part. *)
Definition list_emails_fetch (fuel : nat) (ctx : Context) (folder : string)
    (count : Z) : ST world (list item) :=
  let count := Z.min 50 (Z.max 1 count) in
  endpoint <- resolve_folder ctx folder ;;
  graph_get_paginated fuel ctx endpoint count
    [ ("$top", PInt (Z.min 50 count));
      ("$orderby", PStr "receivedDateTime desc");
      ("$select", PStr email_list_fields) ].

Definition list_emails (fuel : nat) (ctx : Context) (folder : string)
    (count : Z) : ST world string :=
  emails <- list_emails_fetch fuel ctx folder count ;;
  ret (format_listing emails folder).

(** *** search_emails *)

Definition quoted (s : string) : string := dq +:+ s +:+ dq.

Definition base_params (count : Z) : dict :=
  [ ("$top", PInt count);
    ("$orderby", PStr "receivedDateTime desc");
    ("$select", PStr email_list_fields) ].

(** Lines 295-321: the parameters of the combined search. *)
Definition combined_params (count : Z) (query from_address subject : option string)
    (has_attachments unread_only : option bool) : dict :=
  let params := base_params count in
  let search_terms :=
    (if truthy query then [quoted (default "" query)] else [])
    ++ (if truthy subject then ["subject:" +:+ quoted (default "" subject)]
        else [])
    ++ (if truthy from_address
        then ["from:" +:+ quoted (default "" from_address)] else []) in
  let params :=
    match search_terms with
    | [] => params
    | _ => dict_set "$search" (PStr (join " " search_terms)) params
    end in
  let filters :=
    (if bool_decide (has_attachments = Some true)
     then ["hasAttachments eq true"] else [])
    ++ (if bool_decide (unread_only = Some true)
        then ["isRead eq false"] else []) in
  match filters with
  | [] => params
  | _ => dict_set "$filter" (PStr (join " and " filters)) params
  end.

(** Lines 335-340: the parameters of a single-term search. *)
Definition fallback_params (count : Z) (term_name term_value : string) : dict :=
  [ ("$top", PInt count);
    ("$orderby", PStr "receivedDateTime desc");
    ("$select", PStr email_list_fields);
    ("$search",
     PStr (if negb (bool_decide (term_name = "query"))
           then term_name +:+ ":" +:+ quoted term_value
           else quoted term_value)) ].

(** Lines 332-345: the [for] loop over the individual terms. [Some] is an
    early [return]; [None] falls out of the loop. *)
Fixpoint individual_terms (fuel : nat) (ctx : Context) (endpoint : string)
    (count : Z) (terms : list (string * option string))
  : ST world (option (list item * string)) :=
  match terms with
  | [] => ret None
  | (term_name, term_value) :: rest =>
      if truthy term_value then
        found <- try_except
          (emails <- graph_get_paginated fuel ctx endpoint count
                       (fallback_params count term_name
                                        (default "" term_value)) ;;
           match emails with
           | [] => ret None
           | _ => ret (Some (emails, term_name +:+ " search"))
           end)
          (fun _ => ret None) ;;
        match found with
        | Some hit => ret (Some hit)
        | None => individual_terms fuel ctx endpoint count rest
        end
      else individual_terms fuel ctx endpoint count rest
  end.

(** Lines 291-354: the emails and the strategy label handed to
    [_format_search_results]. *)
Definition search_emails_found (fuel : nat) (ctx : Context)
    (query : option string) (folder : string)
    (from_address subject : option string)
    (has_attachments unread_only : option bool) (count : Z)
  : ST world (list item * string) :=
  let count := Z.min 50 (Z.max 1 count) in
  endpoint <- resolve_folder ctx folder ;;
  let params := combined_params count query from_address subject
                                has_attachments unread_only in
  combined <- try_except
    (emails <- graph_get_paginated fuel ctx endpoint count params ;;
     match emails with
     | [] => ret None
     | _ => ret (Some (emails, "combined search"))
     end)
    (fun _ => ret None) ;;
  match combined with
  | Some hit => ret hit
  | None =>
      single <- individual_terms fuel ctx endpoint count
                  [ ("subject", subject); ("from", from_address);
                    ("query", query) ] ;;
      match single with
      | Some hit => ret hit
      | None =>
          emails <- graph_get_paginated fuel ctx endpoint count
                      (base_params count) ;;
          ret (emails, "recent emails fallback")
      end
  end.

Definition search_emails (fuel : nat) (ctx : Context)
    (query : option string) (folder : string)
    (from_address subject : option string)
    (has_attachments unread_only : option bool) (count : Z)
  : ST world string :=
  found <- search_emails_found fuel ctx query folder from_address subject
             has_attachments unread_only count ;;
  ret (_format_search_results (fst found) (snd found)).

(** *** Vocabulary of the statements *)

(** The failures of [graph_get], under the names of the error taxonomy. *)
Definition AuthMissing : exn := ToolError AUTH_REQUIRED.

Definition ReauthNeeded : exn := ToolError SESSION_EXPIRED.

Definition UpstreamError (status : Z) : exn :=
  ToolError ("Microsoft Graph API error: " +:+ pretty status).

Definition TransportError : exn := HTTPError.

Definition token_bound (ctx : Context) : Prop :=
  truthy (get_state ctx "microsoft_token") = true.

(** The request [graph_get] sends when a token is bound. *)
Definition request_of (ctx : Context) (endpoint : string) (ps : dict)
  : request :=
  {| url := if String.prefix "http" endpoint then endpoint
            else GRAPH_BASE_URL +:+ "/" +:+ endpoint;
     authorization :=
       "Bearer " +:+ default "" (get_state ctx "microsoft_token");
     params := if negb (String.prefix "http" endpoint) then Some ps else None;
     timeout := 30 |}.

(** What [graph_get] makes of the answer to its request. *)
Definition verdict (resp : response) : outcome envelope :=
  match resp with
  | NoResponse => Raise TransportError
  | Response s body =>
      if s =? 401 then Raise ReauthNeeded
      else if 400 <=? s then Raise (UpstreamError s)
      else match body with
           | Some b => Ok b
           | None => Raise JSONDecodeError
           end
  end.

(** The page a response delivers, if it delivers one. *)
Definition page_of (resp : response) : option envelope :=
  match resp with
  | Response s (Some body) => if s <? 400 then Some body else None
  | _ => None
  end.

Definition items_of (resp : response) : list item :=
  match page_of resp with
  | Some body => default [] (value body)
  | None => []
  end.

(** The response is a page that carries a continuation reference. *)
Definition continues (resp : response) : bool :=
  match page_of resp with
  | Some body => truthy (nextLink body)
  | None => false
  end.

(** The items of a sequence of responses, in order. *)
Definition collected (pages : list response) : list item :=
  concat (map items_of pages).

(** From [w] on, the remote answers the successive requests with [pages]. *)
Definition serves (w : world) (pages : list response) : Prop :=
  forall k p rq,
    pages !! k = Some p -> graph w (length (http_log w) + k) rq = p.

(** Every page of the remote that has a continuation reference has an item. *)
Definition progresses (w : world) : Prop :=
  forall n rq body,
    page_of (graph w n rq) = Some body ->
    truthy (nextLink body) = true ->
    default [] (value body) <> [].

(** The requests and the [graph_get] calls made between two worlds. *)
Definition issued (w w' : world) : list request :=
  drop (length (http_log w)) (http_log w').

Definition called (w w' : world) : list (string * dict) :=
  drop (length (calls w)) (calls w').

(** A request that carries no query parameters of its own. *)
Definition no_parameters (rq : request) : Prop :=
  params rq = None \/ params rq = Some [].

(** A request that asks for a page size asks for 1 to 50 items. *)
Definition top_in_range (rq : request) : Prop :=
  forall d v,
    params rq = Some d -> dict_get "$top" d = Some v ->
    exists k, v = PInt k /\ 1 <= k <= 50.

(** A parameter dict that, if it sets the page size, sets it to 1..50. *)
Definition top_ok (ps : dict) : Prop :=
  forall v, dict_get "$top" ps = Some v -> exists k, v = PInt k /\ 1 <= k <= 50.

(** Between [w] and [w'] only requests satisfying [P] were sent. *)
Definition sends (P : request -> Prop) (w w' : world) : Prop :=
  exists rs, http_log w' = http_log w ++ rs /\ Forall P rs.

(** A computation that sends only requests satisfying [P] and whose
    results satisfy [Q]. *)
Definition post {A} (P : request -> Prop) (Q : A -> Prop) (m : ST world A)
  : Prop :=
  forall w, sends P w (snd (m w)) /\ forall a, fst (m w) = Ok a -> Q a.

(** The search tiers before the final one, in the order of the
    specification: the combined search, then one search per non-empty term,
    subject first, sender second, free text last, each quoted alone. *)
Definition in_quotes (s : string) : string :=
  String (Ascii.ascii_of_nat 34) (s +:+ String (Ascii.ascii_of_nat 34) "").

Definition single_term (count : Z) (expr : string) : dict :=
  [ ("$top", PInt count);
    ("$orderby", PStr "receivedDateTime desc");
    ("$select", PStr email_list_fields);
    ("$search", PStr expr) ].

Definition search_tiers (count : Z) (query from_address subject : option string)
    (has_attachments unread_only : option bool) : list (string * dict) :=
  [ ("combined search",
     combined_params count query from_address subject
                     has_attachments unread_only) ]
  ++ match subject with
     | Some s =>
         if bool_decide (s = "") then []
         else [("subject search", single_term count ("subject:" +:+ in_quotes s))]
     | None => []
     end
  ++ match from_address with
     | Some f =>
         if bool_decide (f = "") then []
         else [("from search", single_term count ("from:" +:+ in_quotes f))]
     | None => []
     end
  ++ match query with
     | Some q =>
         if bool_decide (q = "") then []
         else [("query search", single_term count (in_quotes q))]
     | None => []
     end.

(** The tiers the [for] loop of [search_emails] goes through for a list of
    named terms. *)
Definition term_tiers (count : Z) (terms : list (string * option string))
  : list (string * dict) :=
  flat_map
    (fun t =>
       if truthy (snd t)
       then [(fst t +:+ " search",
              fallback_params count (fst t) (default "" (snd t)))]
       else [])
    terms.

(** The unfiltered fetch, most recent first. *)
Definition recent_params (count : Z) : dict :=
  [ ("$top", PInt count);
    ("$orderby", PStr "receivedDateTime desc");
    ("$select", PStr email_list_fields) ].

(** Running the tiers in order from [w] to [w'], each one failed or came
    back empty. *)
Inductive falls_through (fetch : dict -> ST world (list item))
  : list (string * dict) -> world -> world -> Prop :=
| ft_done w : falls_through fetch [] w w
| ft_empty label ps rest w w1 w2 :
    fetch ps w = (Ok [], w1) ->
    falls_through fetch rest w1 w2 ->
    falls_through fetch ((label, ps) :: rest) w w2
| ft_failed label ps rest e w w1 w2 :
    fetch ps w = (Raise e, w1) ->
    falls_through fetch rest w1 w2 ->
    falls_through fetch ((label, ps) :: rest) w w2.

(** The text opens with the header that names the tier and the number of
    emails. *)
Definition names_tier (label : string) (count : nat) (text : string) : Prop :=
  exists rest,
    text = "Found " +:+ pretty count +:+ " emails (via " +:+ label +:+ "):"
           +:+ rest.

(** The text returned for an empty result. *)
Definition NO_EMAILS : string :=
  "No emails found matching your search criteria.".

(** The labels of the five tiers. *)
Definition tier_labels : list string :=
  [ "combined search"; "subject search"; "from search"; "query search";
    "recent emails fallback" ].

(** *** strip_html *)

Definition chr_lt : Ascii.ascii := Ascii.ascii_of_nat 60.

Definition chr_gt : Ascii.ascii := Ascii.ascii_of_nat 62.

(** The string has a [>]. *)
Fixpoint has_gt (s : string) : bool :=
  match s with
  | EmptyString => false
  | String c s' => bool_decide (c = chr_gt) || has_gt s'
  end.

(** [re.sub(r'<[^>]*>', '', s)], scanning from the left. A [<] opens a
    match when a [>] follows somewhere, since [[^>]*] runs over everything
    else; the match ends at the first [>]. A [<] with no [>] after it is
    kept. [in_tag] says that the scan is inside a match. *)
Fixpoint strip_tags (in_tag : bool) (s : string) : string :=
  match s with
  | EmptyString => EmptyString
  | String c s' =>
      if in_tag then
        if bool_decide (c = chr_gt) then strip_tags false s'
        else strip_tags true s'
      else if bool_decide (c = chr_lt) && has_gt s' then strip_tags true s'
      else String c (strip_tags false s')
  end.

Definition strip_html (html : string) : string :=
  if bool_decide (html = "") then "" else strip_tags false html.

(** The string has a [<] with a [>] somewhere after it. *)
Fixpoint has_tag (s : string) : bool :=
  match s with
  | EmptyString => false
  | String c s' => (bool_decide (c = chr_lt) && has_gt s') || has_tag s'
  end.

(** *** read_email, up to the response *)

(** [settings.email_detail_fields], at its default. *)
Definition email_detail_fields : string :=
  "id,subject,from,toRecipients,ccRecipients,bccRecipients,receivedDateTime,bodyPreview,body,hasAttachments,importance,isRead".

(** [needle in hay] *)
Fixpoint contains (needle hay : string) : bool :=
  String.prefix needle hay
  || match hay with
     | EmptyString => false
     | String _ hay' => contains needle hay'
     end.

(** Lines 385-399: the guard, the request and the translation of its
    failures. [str_of] is [str(e)], the text of an exception. The parsed
    body is handed on to the formatting part as it is. *)
Definition read_email_fetch (str_of : exn -> string) (ctx : Context)
    (email_id : string) : ST world envelope :=
  if bool_decide (email_id = "") then raise (ToolError "Email ID is required.")
  else
    try_except
      (graph_get ctx ("me/messages/" +:+ email_id)
                 [("$select", PStr email_detail_fields)])
      (fun e =>
         match e with
         | ToolError _ => raise e
         | _ =>
             if contains "doesn't belong" (lower (str_of e))
             then raise (ToolError
                    "Invalid email ID or email not found in your mailbox.")
             else raise (ToolError ("Failed to read email: " +:+ str_of e))
         end).

(** *** Vocabulary of the further statements *)

(** The parameters of the folder lookup of [resolve_folder]. *)
Definition folder_lookup (folder_name : string) : dict :=
  [("$filter", PStr ("displayName eq '" +:+ folder_name +:+ "'"))].

(** The endpoint [resolve_folder] makes of the answer to its lookup. *)
Definition custom_endpoint (resp : response) : string :=
  match page_of resp with
  | Some {| value := Some (first :: _) |} =>
      match item_id first with
      | Some folder_id => "me/mailFolders/" +:+ folder_id +:+ "/messages"
      | None => INBOX
      end
  | _ => INBOX
  end.

(** The text is ASCII: on such text [lower] is [str.lower()]. *)
Fixpoint ascii_only (s : string) : bool :=
  match s with
  | EmptyString => true
  | String c s' => (Ascii.nat_of_ascii c <? 128)%nat && ascii_only s'
  end.

End Server.

(** ** server.py: the authentication middleware *)

Module Middleware.

(** The middleware runs the token manager and then the tool: its world is
    the pair of theirs. *)
Definition world : Type := Auth.world * Server.world.

Definition lift_auth {A} (m : ST Auth.world A) : ST world A :=
  fun w =>
    match m (fst w) with
    | (r, a') => (r, (a', snd w))
    end.

Definition lift_server {A} (m : ST Server.world A) : ST world A :=
  fun w =>
    match m (snd w) with
    | (r, s') => (r, (fst w, s'))
    end.

(** [headers.get("x-user-id") or headers.get("X-User-ID")] *)
Definition header_user_id (headers : gmap string string) : option string :=
  if truthy (headers !! "x-user-id") then headers !! "x-user-id"
  else headers !! "X-User-ID".

Definition NO_USER_ID : string :=
  "Authentication required. No X-User-ID header found.".

(** Lines 168-190 of [on_call_tool]: the context the tool will see.
    [str_of] is [str(e)], the text of an exception. *)
Definition authenticate (str_of : exn -> string) (self : Auth.TokenService)
    (headers : gmap string string) (ctx : gmap string string)
  : ST Auth.world (gmap string string) :=
  try_except
    (let user_id := header_user_id headers in
     if negb (truthy user_id) then raise (ToolError NO_USER_ID)
     else
       token <- try_except
                  (Auth.get_token self (default "" user_id))
                  (fun e =>
                     match e with
                     | TokenServiceError message _ => raise (ToolError message)
                     | _ => raise e
                     end) ;;
       ret (<["microsoft_token" := Auth.tok_access_token token]>
              (<["user_id" := default "" user_id]> ctx)))
    (fun e =>
       match e with
       | ToolError _ => raise e
       | _ => raise (ToolError ("Authentication failed: " +:+ str_of e))
       end).

(** [on_call_tool]: authenticate, then [call_next]. *)
Definition on_call_tool {A} (str_of : exn -> string)
    (self : Auth.TokenService) (headers : gmap string string)
    (ctx : gmap string string)
    (call_next : gmap string string -> ST Server.world A) : ST world A :=
  ctx' <- lift_auth (authenticate str_of self headers ctx) ;;
  lift_server (call_next ctx').

End Middleware.

(** ** Concrete scenarios *)

Module Scenario.

Import Auth.

(** A stand-in cipher: a fixed prefix marks ciphertext. *)
Definition demo_cipher : Cipher :=
  {| encrypt := fun s => "enc:" +:+ s;
     decrypt := fun s =>
       if String.prefix "enc:" s
       then Some (String.substring 4 (String.length s - 4)%nat s)
       else None |}.

Definition svc : TokenService :=
  {| cipher := demo_cipher; client_id := "client";
     client_secret := "secret"; tenant_id := "common" |}.

(** One active connection of user [u1], expiring at second [expires_s]. *)
Definition conn (expires_s : Z) : row :=
  {| id := "c1"; user_id := "u1"; provider := "microsoft";
     access_token := "enc:old-access"; refresh_token := "enc:old-refresh";
     expires_at := at_utc (expires_s * 1000000);
     provider_metadata := "{}"; is_active := true;
     created_at := 0; updated_at := 0; last_used_at := None |}.

(** The same connection with its expiry stored without time zone. *)
Definition conn_naive (expires_s : Z) : row :=
  {| id := "c1"; user_id := "u1"; provider := "microsoft";
     access_token := "enc:old-access"; refresh_token := "enc:old-refresh";
     expires_at := {| wall := expires_s * 1000000; tzinfo := None |};
     provider_metadata := "{}"; is_active := true;
     created_at := 0; updated_at := 0; last_used_at := None |}.

(** A provider that grants every refresh for one hour and rotates nothing. *)
Definition idp_grants : nat -> token_request -> token_response :=
  fun _ _ =>
    Response 200 (Some {| data_access_token := Some "new-access";
                          data_refresh_token := None;
                          data_expires_in := Some 3600 |}).

(** The world at second [now_s], with a clock that stands still. *)
Definition at_time (now_s : Z) (rows : list row) : world :=
  {| store := rows; clock := fun _ => now_s * 1000000; ticks := 0%nat;
     idp := idp_grants; idp_log := []; locks := ∅ |}.

(** A context with a bound token, and one without. *)
Definition signed_in : gmap string string :=
  {[ "user_id" := "u1"; "microsoft_token" := "tok" ]}.

Definition anonymous : gmap string string := ∅.

Definition mail (n : string) : Server.item :=
  {| Server.item_id := Some n; Server.subject_of := Some ("Subject " +:+ n);
     Server.from_of := None; Server.receivedDateTime := None;
     Server.isRead := Some true |}.

Definition ten : list Server.item :=
  map mail ["0"; "1"; "2"; "3"; "4"; "5"; "6"; "7"; "8"; "9"].

(** A page of ten items with a continuation reference. *)
Definition page_with_link : Server.response :=
  Server.Response 200
    (Some {| Server.value := Some ten;
             Server.nextLink :=
               Some "https://graph.microsoft.com/v1.0/me/messages?$skip=10" |}).

(** A last page of ten items. *)
Definition last_page : Server.response :=
  Server.Response 200
    (Some {| Server.value := Some ten; Server.nextLink := None |}).

(** An empty page that still points further. *)
Definition empty_page_with_link : Server.response :=
  Server.Response 200
    (Some {| Server.value := Some [];
             Server.nextLink :=
               Some "https://graph.microsoft.com/v1.0/me/messages?$skip=0" |}).

(** A remote that answers every request with the same response. *)
Definition always (resp : Server.response) : Server.world :=
  {| Server.graph := fun _ _ => resp; Server.http_log := [];
     Server.calls := [] |}.

(** A remote that answers the successive requests with the given pages and
    is unreachable afterwards. *)
Definition scripted (pages : list Server.response) : Server.world :=
  {| Server.graph := fun n _ => default Server.NoResponse (pages !! n);
     Server.http_log := []; Server.calls := [] |}.

(** A mailbox in which only searches on the subject find anything. *)
Definition has_search (rq : Server.request) (prefix : string) : bool :=
  match Server.params rq with
  | Some d =>
      match Server.dict_get "$search" d with
      | Some (Server.PStr e) => String.prefix prefix e
      | _ => false
      end
  | None => false
  end.

Definition subject_only : Server.world :=
  {| Server.graph := fun _ rq =>
       if has_search rq "subject:"
       then Server.Response 200
              (Some {| Server.value := Some [mail "7"];
                       Server.nextLink := None |})
       else Server.Response 200
              (Some {| Server.value := Some []; Server.nextLink := None |});
     Server.http_log := []; Server.calls := [] |}.

(** The world at second [now_s] with a given identity provider. *)
Definition at_time_with (provider_at : nat -> token_request -> token_response)
    (now_s : Z) (rows : list row) : world :=
  {| store := rows; clock := fun _ => now_s * 1000000; ticks := 0%nat;
     idp := provider_at; idp_log := []; locks := ∅ |}.

(** A provider that rejects every refresh. *)
Definition idp_rejects : nat -> token_request -> token_response :=
  fun _ _ => Response 400 None.

(** The connection of [u1], deactivated. *)
Definition conn_inactive (expires_s : Z) : row :=
  {| id := "c0"; user_id := "u1"; provider := "microsoft";
     access_token := "enc:stale-access"; refresh_token := "enc:stale-refresh";
     expires_at := at_utc (expires_s * 1000000);
     provider_metadata := "{}"; is_active := false;
     created_at := 5; updated_at := 5; last_used_at := None |}.

(** A connection of [u1] whose access token column is not ciphertext. *)
Definition conn_corrupted (expires_s : Z) : row :=
  {| id := "c2"; user_id := "u1"; provider := "microsoft";
     access_token := "garbage"; refresh_token := "enc:old-refresh";
     expires_at := at_utc (expires_s * 1000000);
     provider_metadata := "{}"; is_active := true;
     created_at := 0; updated_at := 0; last_used_at := None |}.

(** A provider that grants every refresh for [seconds] seconds. *)
Definition idp_grants_for (seconds : Z)
  : nat -> token_request -> token_response :=
  fun _ _ =>
    Response 200 (Some {| data_access_token := Some "new-access";
                          data_refresh_token := None;
                          data_expires_in := Some seconds |}).

End Scenario.

(** ** Properties of the token manager *)

Module AuthFacts.

Import Auth.

Ltac auth_unfold :=
  unfold execute_touch, execute_store_tokens, datetime_now_utc, read_clock,
    fetchrow, ensure_lock, post in *;
  st_unfold.

(** *** The table under keyed updates *)

Lemma same_identity_refl r : same_identity r r.
Proof. repeat split. Qed.

Lemma same_identity_trans r1 r2 r3 :
  same_identity r1 r2 -> same_identity r2 r3 -> same_identity r1 r3.
Proof.
  unfold same_identity. intros (?&?&?&?&?&?) (?&?&?&?&?&?).
  repeat split; congruence.
Qed.

Lemma touches_refl cid r : touches cid r r.
Proof. split; [apply same_identity_refl | done]. Qed.

Lemma touches_trans cid r1 r2 r3 :
  touches cid r1 r2 -> touches cid r2 r3 -> touches cid r1 r3.
Proof.
  intros [I12 C12] [I23 C23]. split.
  - eapply same_identity_trans; eauto.
  - intros Hne. rewrite <- (C12 Hne). apply C23.
    destruct I12 as [-> _]. done.
Qed.

Lemma update_where_id_touches cid f rows :
  (forall r, same_identity r (f r)) ->
  Forall2 (touches cid) rows (update_where_id cid f rows).
Proof.
  intros Hf. unfold update_where_id.
  induction rows as [|r rows IH]; simpl; constructor; [|exact IH].
  case_bool_decide; [|apply touches_refl].
  split; [apply Hf | done].
Qed.

Lemma Forall2_touches_refl cid rows : Forall2 (touches cid) rows rows.
Proof. induction rows; constructor; auto using touches_refl. Qed.

Lemma Forall2_touches_trans cid s1 s2 s3 :
  Forall2 (touches cid) s1 s2 -> Forall2 (touches cid) s2 s3 ->
  Forall2 (touches cid) s1 s3.
Proof.
  intros H12. revert s3.
  induction H12 as [|r1 r2 s1 s2 Hr H12 IH]; intros s3 H23;
    inversion H23; subst; constructor; eauto using touches_trans.
Qed.

Create HintDb frame.

#[local] Hint Resolve Forall2_touches_refl update_where_id_touches : frame.

(** *** The refresh protocol *)

(** Whatever the provider answers, exactly one request reaches it. *)
Lemma refresh_token_log self rt cid w :
  idp_log (snd (_refresh_token self rt cid w))
  = idp_log w ++ [refresh_request self rt].
Proof.
  unfold _refresh_token. auth_unfold.
  destruct (idp w _ _) as [|s j]; simpl; [done|].
  destruct (s =? 200); simpl; [|done].
  destruct j as [d|]; simpl; [|done].
  destruct (data_access_token d); simpl; [|done].
  destruct (dt_add_seconds _ _); simpl; [|done].
  by destruct (naive_expiry_column _ && _).
Qed.

Lemma refresh_token_touches self rt cid w :
  Forall2 (touches cid) (store w) (store (snd (_refresh_token self rt cid w))).
Proof.
  unfold _refresh_token. auth_unfold.
  destruct (idp w _ _) as [|s j]; simpl; auto with frame.
  destruct (s =? 200); simpl; auto with frame.
  destruct j as [d|]; simpl; auto with frame.
  destruct (data_access_token d); simpl; auto with frame.
  destruct (dt_add_seconds _ _); simpl; auto with frame.
  destruct (naive_expiry_column _ && _); simpl; auto with frame.
  apply update_where_id_touches. intros r. repeat split.
Qed.

Lemma dt_add_seconds_in_range now s :
  expiry_in_range now s ->
  dt_add_seconds (at_utc now) s = Some (at_utc (now + s * 1000000)).
Proof.
  intros [[Hd1 Hd2] [Hr1 Hr2]]. unfold dt_add_seconds, timedelta_seconds.
  destruct (Z.leb_spec (-999999999) (s / 86400)); [|lia].
  destruct (Z.leb_spec (s / 86400) 999999999); [|lia]. simpl.
  unfold dt_add. simpl.
  destruct (Z.leb_spec DATETIME_MIN (now + s * 1000000)); [|lia].
  by destruct (Z.leb_spec (now + s * 1000000) DATETIME_MAX); [|lia].
Qed.

Lemma aware_expiries_column rows :
  aware_expiries rows -> naive_expiry_column rows = false.
Proof.
  unfold naive_expiry_column. induction 1 as [|r rows Hr _ IH]; [done|].
  simpl. by rewrite IH, bool_decide_eq_false_2.
Qed.

(** The world a granted refresh leaves. *)
Lemma refresh_token_granted self rt cid w d a' :
  idp w (length (idp_log w)) (refresh_request self rt) = Response 200 (Some d) ->
  data_access_token d = Some a' ->
  expiry_in_range (clock w (ticks w)) (default 3600 (data_expires_in d)) ->
  aware_expiries (store w) ->
  _refresh_token self rt cid w
  = (Ok a',
     set_store
       (update_where_id cid
          (with_tokens
             (encrypt (cipher self) a')
             (encrypt (cipher self) (default rt (data_refresh_token d)))
             (at_utc (clock w (ticks w)
                      + default 3600 (data_expires_in d) * 1000000))
             (clock w (S (ticks w)))))
       (set_ticks (S (S (ticks w)))
          (set_idp_log (idp_log w ++ [refresh_request self rt]) w))).
Proof.
  intros H Ha Hrange Haware. unfold _refresh_token. auth_unfold.
  rewrite H. simpl. rewrite Ha. simpl.
  rewrite (dt_add_seconds_in_range _ _ Hrange). simpl.
  rewrite (aware_expiries_column _ Haware). reflexivity.
Qed.

(** C5, as the code has it. A successful refresh response whose expiry can
    be formed, on a table whose expiries carry a time zone: the call
    returns the access token of the response; every row keyed by the
    connection id receives the encrypted new access token, the encrypted
    refresh token (the one of the response, or the previous one when the
    response has none), the expiry "time of the refresh plus [expires_in]
    seconds" (3600 when the response has none) and a new update timestamp;
    its other columns and all other rows are as before. *)
Theorem refresh_token_success self rt cid w d a :
  idp w (length (idp_log w)) (refresh_request self rt) = Response 200 (Some d) ->
  data_access_token d = Some a ->
  let new_refresh :=
    match data_refresh_token d with Some n => n | None => rt end in
  let lifetime :=
    match data_expires_in d with Some s => s | None => 3600 end in
  let now := clock w (ticks w) in
  expiry_in_range now lifetime ->
  aware_expiries (store w) ->
  fst (_refresh_token self rt cid w) = Ok a /\
  Forall2
    (fun r r' =>
       if bool_decide (id r = cid) then
         access_token r' = encrypt (cipher self) a /\
         refresh_token r' = encrypt (cipher self) new_refresh /\
         expires_at r' = at_utc (now + lifetime * 1000000) /\
         updated_at r' = clock w (S (ticks w)) /\
         last_used_at r' = last_used_at r /\
         same_identity r r'
       else r' = r)
    (store w) (store (snd (_refresh_token self rt cid w))).
Proof.
  intros Hresp Hacc new_refresh lifetime now Hrange Haware.
  rewrite (refresh_token_granted _ _ _ _ _ _ Hresp Hacc Hrange Haware).
  simpl. split; [done|].
  unfold update_where_id. clear Hresp Hrange Haware.
  generalize (store w) as rows.
  induction rows as [|r rows IH]; simpl; constructor; [|exact IH].
  case_bool_decide; [|done].
  unfold new_refresh, lifetime, now. simpl.
  destruct (data_refresh_token d), (data_expires_in d); simpl;
    repeat split; done.
Qed.

Lemma refresh_token_success_witness :
  let w := Scenario.at_time 900 [Scenario.conn 1000] in
  let d := {| data_access_token := Some "new-access";
              data_refresh_token := None;
              data_expires_in := Some 3600 |} in
  idp w (length (idp_log w)) (refresh_request Scenario.svc "old-refresh")
  = Response 200 (Some d) /\
  data_access_token d = Some "new-access" /\
  expiry_in_range (clock w (ticks w)) 3600 /\
  aware_expiries (store w) /\
  fst (_refresh_token Scenario.svc "old-refresh" "c1" w) = Ok "new-access".
Proof.
  assert (Hrange : expiry_in_range (900 * 1000000) 3600)
    by (repeat split; vm_compute; discriminate).
  assert (Haware : aware_expiries [Scenario.conn 1000])
    by (repeat constructor; discriminate).
  split; [reflexivity|]. split; [reflexivity|].
  split; [exact Hrange|]. split; [exact Haware|].
  apply (refresh_token_success Scenario.svc "old-refresh" "c1"
           (Scenario.at_time 900 [Scenario.conn 1000]) _ "new-access"
           eq_refl eq_refl Hrange Haware).
Defined.

(** C5, as the claim has it, fails. A response with status 200 and an
    access token is not stored when its expiry cannot be formed
    ([expires_in] of 10^12 seconds leads past year 9999) or when the
    expiry column has no time zone: the call raises and the table is as it
    was. *)
Lemma refresh_token_not_always_stored :
  let far := Scenario.at_time_with (Scenario.idp_grants_for (10 ^ 12)) 900
               [Scenario.conn 1000] in
  let naive := Scenario.at_time 900 [Scenario.conn_naive 1000] in
  (idp far (length (idp_log far)) (refresh_request Scenario.svc "old-refresh")
   = Response 200 (Some {| data_access_token := Some "new-access";
                           data_refresh_token := None;
                           data_expires_in := Some (10 ^ 12) |}) /\
   fst (_refresh_token Scenario.svc "old-refresh" "c1" far)
   = Raise OverflowError /\
   store (snd (_refresh_token Scenario.svc "old-refresh" "c1" far))
   = store far) /\
  (idp naive (length (idp_log naive))
       (refresh_request Scenario.svc "old-refresh")
   = Response 200 (Some {| data_access_token := Some "new-access";
                           data_refresh_token := None;
                           data_expires_in := Some 3600 |}) /\
   fst (_refresh_token Scenario.svc "old-refresh" "c1" naive)
   = Raise DataError /\
   store (snd (_refresh_token Scenario.svc "old-refresh" "c1" naive))
   = store naive).
Proof. vm_compute. repeat split. Qed.

(** The access token is required: a success response without it raises
    [KeyError] and leaves the table as it was. *)
Lemma refresh_token_requires_access_token self rt cid w d :
  idp w (length (idp_log w)) (refresh_request self rt) = Response 200 (Some d) ->
  data_access_token d = None ->
  fst (_refresh_token self rt cid w) = Raise (KeyError "access_token") /\
  store (snd (_refresh_token self rt cid w)) = store w.
Proof.
  intros Hresp Hacc. unfold _refresh_token. auth_unfold.
  rewrite Hresp. simpl. rewrite Hacc. done.
Qed.

(** Any status other than 200 is a request to authenticate again, and
    nothing is stored. *)
Lemma refresh_token_rejected self rt cid w s body :
  idp w (length (idp_log w)) (refresh_request self rt) = Response s body ->
  s <> 200 ->
  fst (_refresh_token self rt cid w)
  = Raise (TokenServiceError "Token refresh failed. Please reconnect." 401) /\
  store (snd (_refresh_token self rt cid w)) = store w.
Proof.
  intros Hresp Hs. unfold _refresh_token. auth_unfold.
  rewrite Hresp. simpl. by destruct (Z.eqb_spec s 200).
Qed.

(** *** get_token *)

Lemma dt_sub_normalized r now :
  dt_sub (normalized (expires_at r)) (at_utc now) = remaining r now.
Proof. unfold dt_sub, remaining, instant, at_utc. simpl. lia. Qed.

(** The shape of a call that found a row and decrypted it. *)
Lemma get_token_found self user w r a rt :
  select_connection user (store w) = Some r ->
  decrypt (cipher self) (access_token r) = Some a ->
  decrypt (cipher self) (refresh_token r) = Some rt ->
  let w1 := set_ticks (S (ticks w)) (set_locks ({[ user ]} ∪ locks w) w) in
  get_token self user w =
  ((access <- (if remaining r (clock w (ticks w)) <? 300 * 1000000
               then _refresh_token self rt (id r)
               else ret a) ;;
    execute_touch (id r) ;;;
    ret {| tok_access_token := access; tok_user_id := user;
           tok_expires_at := Some (normalized (expires_at r)) |}) w1).
Proof.
  intros Hsel Ha Hrt w1.
  unfold get_token, bind at 1 2 3 4, ensure_lock, fetchrow, datetime_now_utc,
    read_clock, ret at 1 2.
  simpl. rewrite Hsel. rewrite Ha, Hrt. unfold bind at 1. unfold ret at 1.
  unfold bind at 1 2. unfold ret at 1. simpl.
  fold (normalized (expires_at r)). rewrite dt_sub_normalized.
  unfold total_seconds_lt. reflexivity.
Qed.

Lemma app_singleton_neq {A} (l : list A) x : l <> l ++ [x].
Proof.
  intros E. apply (f_equal length) in E. rewrite length_app in E.
  simpl in E. lia.
Qed.

(** C2. Once the canonical row is fetched and decrypted, [get_token] sends a
    refresh request to the provider exactly when the remaining lifetime of
    the stored expiry, read as UTC, is below 300 seconds at the time of the
    check; otherwise the provider is not contacted. *)
Theorem get_token_refresh_iff self user w r a rt :
  select_connection user (store w) = Some r ->
  decrypt (cipher self) (access_token r) = Some a ->
  decrypt (cipher self) (refresh_token r) = Some rt ->
  let w' := snd (get_token self user w) in
  let left := remaining r (clock w (ticks w)) in
  (idp_log w' = idp_log w ++ [refresh_request self rt]
   <-> left < 300 * 1000000) /\
  (idp_log w' = idp_log w <-> 300 * 1000000 <= left).
Proof.
  intros Hsel Ha Hrt w' left.
  assert (Hcases :
    (left < 300 * 1000000 /\
     idp_log w' = idp_log w ++ [refresh_request self rt]) \/
    (300 * 1000000 <= left /\ idp_log w' = idp_log w)).
  { subst w'. rewrite (get_token_found _ _ _ _ _ _ Hsel Ha Hrt).
    fold left. destruct (Z.ltb_spec left (300 * 1000000)) as [Hlt|Hge].
    - left. split; [done|].
      unfold bind at 1.
      pose proof (refresh_token_log self rt (id r)
        (set_ticks (S (ticks w)) (set_locks ({[user]} ∪ locks w) w))) as Hlog.
      destruct (_refresh_token self rt (id r) _) as [[acc| |] w2];
        simpl in Hlog |- *; exact Hlog.
    - right. split; [done|]. reflexivity. }
  destruct Hcases as [[Hlt Hlog]|[Hge Hlog]]; rewrite Hlog.
  - split; split; intros H; try done; try lia.
    symmetry in H. by apply app_singleton_neq in H.
  - split; split; intros H; try done; try lia.
    by apply app_singleton_neq in H.
Qed.

(** A token expiring in 299 seconds is refreshed. *)
Lemma get_token_refresh_iff_witness :
  let w := Scenario.at_time 701 [Scenario.conn 1000] in
  remaining (Scenario.conn 1000) (clock w (ticks w)) = 299 * 1000000 /\
  idp_log (snd (get_token Scenario.svc "u1" w))
  = [refresh_request Scenario.svc "old-refresh"].
Proof.
  split; [reflexivity|].
  apply (proj1 (get_token_refresh_iff Scenario.svc "u1"
                  (Scenario.at_time 701 [Scenario.conn 1000])
                  (Scenario.conn 1000) "old-access" "old-refresh"
                  eq_refl eq_refl eq_refl)).
  vm_compute. reflexivity.
Defined.

(** A token expiring in 301 seconds is not. *)
Example get_token_301_seconds :
  let w := Scenario.at_time 699 [Scenario.conn 1000] in
  remaining (Scenario.conn 1000) (clock w (ticks w)) = 301 * 1000000 /\
  idp_log (snd (get_token Scenario.svc "u1" w)) = [] /\
  fst (get_token Scenario.svc "u1" w)
  = Ok {| tok_access_token := "old-access"; tok_user_id := "u1";
          tok_expires_at := Some (at_utc 1000000000) |}.
Proof. vm_compute. repeat split. Qed.

(** A naive stored expiry is read as UTC: 1000 s with 299 s left. *)
Example get_token_naive_expiry :
  let w := Scenario.at_time 701 [Scenario.conn_naive 1000] in
  idp_log (snd (get_token Scenario.svc "u1" w))
  = [refresh_request Scenario.svc "old-refresh"].
Proof. vm_compute. reflexivity. Qed.

(** The expiry of the returned token is always the stored one. *)
Lemma get_token_expiry_is_stored self user w tok :
  fst (get_token self user w) = Ok tok ->
  exists r, select_connection user (store w) = Some r /\
            tok_expires_at tok = Some (normalized (expires_at r)).
Proof.
  destruct (select_connection user (store w)) as [r|] eqn:Hsel.
  - destruct (decrypt (cipher self) (access_token r)) as [a|] eqn:Ha;
      [destruct (decrypt (cipher self) (refresh_token r)) as [rt|] eqn:Hrt|].
    + rewrite (get_token_found _ _ _ _ _ _ Hsel Ha Hrt).
      intros H. exists r. split; [done|]. revert H.
      unfold bind at 1.
      match goal with
      | |- context [ (if ?c then ?x else ?y) ?w1 ] =>
          destruct ((if c then x else y) w1) as [[acc| |] w2]
      end; simpl; [|done|done].
      unfold bind, execute_touch, bind, read_clock, ret. simpl.
      intros [= <-]. reflexivity.
    + unfold get_token. auth_unfold. simpl. rewrite Hsel, Ha, Hrt. done.
    + unfold get_token. auth_unfold. simpl. rewrite Hsel, Ha. done.
  - unfold get_token. auth_unfold. simpl. rewrite Hsel. done.
Qed.

(** C1, on the code. With 100 seconds left the token is refreshed: the row
    receives the expiry 900 + 3600 = 4500 s, yet the token handed back with
    the new access token still carries the expiry of the replaced one,
    1000 s. *)
Theorem get_token_returns_replaced_expiry :
  let w := Scenario.at_time 900 [Scenario.conn 1000] in
  fst (get_token Scenario.svc "u1" w)
  = Ok {| tok_access_token := "new-access"; tok_user_id := "u1";
          tok_expires_at := Some (at_utc (1000 * 1000000)) |} /\
  map expires_at (store (snd (get_token Scenario.svc "u1" w)))
  = [at_utc (4500 * 1000000)] /\
  map access_token (store (snd (get_token Scenario.svc "u1" w)))
  = ["enc:new-access"].
Proof. vm_compute. repeat split. Qed.

(** *** The frame of get_token *)

Lemma execute_touch_touches cid w :
  Forall2 (touches cid) (store w) (store (snd (execute_touch cid w))).
Proof.
  unfold execute_touch. auth_unfold. simpl.
  apply update_where_id_touches. intros r. repeat split.
Qed.

(** C8. Whatever [get_token] does, the table keeps its rows, in number and
    in place; every row keeps its id, user, provider, metadata, active flag
    and creation time; and a row whose id is not that of the canonical row
    is not changed at all (no row is, when there is no canonical row). *)
Theorem get_token_frame self user w :
  Forall2 (row_frame (select_connection user (store w)))
          (store w) (store (snd (get_token self user w))).
Proof.
  destruct (select_connection user (store w)) as [r|] eqn:Hsel.
  - change (row_frame (Some r)) with (touches (id r)).
    destruct (decrypt (cipher self) (access_token r)) as [a|] eqn:Ha;
      [destruct (decrypt (cipher self) (refresh_token r)) as [rt|] eqn:Hrt|].
    + rewrite (get_token_found _ _ _ _ _ _ Hsel Ha Hrt).
      set (w1 := set_ticks _ _).
      change (store w) with (store w1).
      unfold bind at 1.
      assert (H1 : Forall2 (touches (id r)) (store w1)
                 (store (snd ((if remaining r (clock w (ticks w))
                                  <? 300 * 1000000
                               then _refresh_token self rt (id r)
                               else ret a) w1)))).
      { destruct (_ <? _); [apply refresh_token_touches|].
        apply Forall2_touches_refl. }
      match goal with
      | |- context [ (if ?c then ?x else ?y) w1 ] =>
          destruct ((if c then x else y) w1) as [[acc| |] w2]
      end; simpl in H1 |- *; try exact H1.
      eapply Forall2_touches_trans; [exact H1|].
      apply (execute_touch_touches (id r) w2).
    + unfold get_token. auth_unfold. simpl. rewrite Hsel, Ha, Hrt.
      apply Forall2_touches_refl.
    + unfold get_token. auth_unfold. simpl. rewrite Hsel, Ha.
      apply Forall2_touches_refl.
  - unfold get_token. auth_unfold. simpl. rewrite Hsel. simpl.
    clear Hsel. generalize (store w) as rows.
    induction rows; constructor; [|done].
    split; [apply same_identity_refl | done].
Qed.

End AuthFacts.

(** ** Properties of the request layer *)

Module ServerFacts.

Import Server.

(** *** graph_get *)

Lemma graph_get_unbound ctx endpoint ps w :
  truthy (get_state ctx "microsoft_token") = false ->
  graph_get ctx endpoint ps w
  = (Raise AuthMissing,
     {| graph := graph w; http_log := http_log w;
        calls := calls w ++ [(endpoint, ps)] |}).
Proof.
  intros Hno. unfold graph_get, record_call. st_unfold. simpl.
  rewrite Hno. reflexivity.
Qed.

Lemma graph_get_bound ctx endpoint ps w :
  token_bound ctx ->
  graph_get ctx endpoint ps w
  = (verdict (graph w (length (http_log w)) (request_of ctx endpoint ps)),
     {| graph := graph w;
        http_log := http_log w ++ [request_of ctx endpoint ps];
        calls := calls w ++ [(endpoint, ps)] |}).
Proof.
  intros Htok. unfold graph_get, record_call, client_get. st_unfold. simpl.
  rewrite Htok. simpl. fold (request_of ctx endpoint ps).
  destruct (graph w _ _) as [|s body]; simpl; [done|].
  destruct (s =? 401); [done|]. destruct (400 <=? s); [done|].
  destruct body; done.
Qed.

Lemma verdict_page resp :
  match page_of resp with
  | Some body => verdict resp = Ok body
  | None => exists e, verdict resp = Raise e
  end.
Proof.
  destruct resp as [|s [b|]]; simpl; eauto.
  - destruct (Z.ltb_spec s 400), (Z.eqb_spec s 401), (Z.leb_spec 400 s);
      eauto; lia.
  - destruct (s =? 401), (400 <=? s); eauto.
Qed.

(** The status can be read back from an upstream error. *)
Lemma UpstreamError_inj s s' : UpstreamError s = UpstreamError s' -> s = s'.
Proof.
  unfold UpstreamError. intros [= H]. by apply (inj pretty).
Qed.

(** C6. Without a bound token [graph_get] fails with [AuthMissing] and
    sends nothing. With one it sends a single request, and the answer
    decides: status 401 is [ReauthNeeded], any other status from 400 on is
    [UpstreamError] with that status, a status below 400 gives the parsed
    body, and no answer at all is [TransportError]. *)
Theorem graph_get_outcomes ctx endpoint ps w :
  let r := graph_get ctx endpoint ps w in
  (~ token_bound ctx ->
     fst r = Raise AuthMissing /\ http_log (snd r) = http_log w) /\
  (token_bound ctx ->
     exists rq,
       http_log (snd r) = http_log w ++ [rq] /\
       match graph w (length (http_log w)) rq with
       | NoResponse => fst r = Raise TransportError
       | Response s body =>
           (s = 401 -> fst r = Raise ReauthNeeded) /\
           (s <> 401 -> 400 <= s -> fst r = Raise (UpstreamError s)) /\
           (s < 400 -> forall b, body = Some b -> fst r = Ok b)
       end).
Proof.
  intros r. subst r. split.
  - intros Hno. rewrite graph_get_unbound; [done|].
    unfold token_bound in Hno. by destruct (truthy _).
  - intros Htok. rewrite (graph_get_bound _ _ _ _ Htok).
    exists (request_of ctx endpoint ps). split; [done|]. simpl.
    destruct (graph w _ _) as [|s body]; simpl; [done|].
    destruct (Z.eqb_spec s 401), (Z.leb_spec 400 s); repeat split;
      intros; subst; try lia; try done.
Qed.

Lemma graph_get_outcomes_witness :
  let w := Scenario.always (Response 503 None) in
  token_bound Scenario.signed_in /\
  fst (graph_get Scenario.signed_in "me/messages" [] w)
  = Raise (UpstreamError 503).
Proof.
  assert (Htok : token_bound Scenario.signed_in) by (vm_compute; reflexivity).
  split; [exact Htok|].
  destruct (proj2 (graph_get_outcomes Scenario.signed_in "me/messages" []
                     (Scenario.always (Response 503 None))) Htok)
    as (rq & _ & H).
  simpl in H. apply H; lia.
Defined.

(** The trace [graph_get] leaves, whatever the outcome. *)
Lemma graph_get_world ctx endpoint ps w :
  snd (graph_get ctx endpoint ps w)
  = {| graph := graph w;
       http_log := http_log w ++
         (if truthy (get_state ctx "microsoft_token")
          then [request_of ctx endpoint ps] else []);
       calls := calls w ++ [(endpoint, ps)] |}.
Proof.
  destruct (truthy (get_state ctx "microsoft_token")) eqn:Htok.
  - by rewrite graph_get_bound.
  - rewrite graph_get_unbound by done. simpl. by rewrite app_nil_r.
Qed.

Lemma request_of_params ctx endpoint ps :
  params (request_of ctx endpoint ps) = None \/
  params (request_of ctx endpoint ps) = Some ps.
Proof. simpl. destruct (String.prefix _ _); auto. Qed.

Lemma request_of_params_cases ctx endpoint ps :
  params (request_of ctx endpoint ps) = None \/
  params (request_of ctx endpoint ps) = Some ps \/
  params (request_of ctx endpoint ps) = Some [].
Proof. destruct (request_of_params ctx endpoint ps); auto. Qed.

(** *** The trace of the pagination loop *)

Lemma paginate_trace fuel ctx max_count :
  forall acc endpoint ps w,
    let w' := snd (paginate fuel ctx max_count acc endpoint ps w) in
    graph w' = graph w /\
    (exists cs, calls w' = calls w ++ cs /\
       (cs = [] \/
        exists rest, cs = (endpoint, ps) :: rest /\
                     Forall (fun c => snd c = []) rest)) /\
    (exists rs, http_log w' = http_log w ++ rs /\
       Forall (fun rq => params rq = None \/ params rq = Some ps) (take 1 rs) /\
       Forall no_parameters (drop 1 rs)).
Proof.
  induction fuel as [|fuel IH]; intros acc endpoint ps w w';
    assert (Hw' : w' = snd (paginate _ ctx max_count acc endpoint ps w))
      by reflexivity;
    clearbody w'; simpl in Hw'.
  - destruct (len acc <? max_count); simpl in Hw'; subst w';
      (split; [done|]; split; exists []; rewrite app_nil_r; auto).
  - destruct (len acc <? max_count); simpl in Hw';
      [|subst w'; split; [done|]; split; exists []; rewrite app_nil_r; auto].
    unfold bind at 1 in Hw'.
    destruct (truthy (get_state ctx "microsoft_token")) eqn:Htok.
    + rewrite (graph_get_bound _ _ _ _ Htok) in Hw'.
      destruct (verdict _) as [resp| |]; simpl in Hw'.
      * destruct (negb (truthy (nextLink resp))
                  || (max_count <=? len (acc ++ default [] (value resp)))).
        -- subst w'. simpl. split; [done|]. split.
           ++ exists [(endpoint, ps)]. split; [done|]. right. by exists [].
           ++ exists [request_of ctx endpoint ps]. split; [done|]. simpl.
              split; [constructor; [apply request_of_params|constructor]|constructor].
        -- match type of Hw' with
           | context [ paginate fuel ctx max_count ?a ?e [] ?w1 ] =>
               destruct (IH a e [] w1)
                 as (Hg & (cs & Hcs & Hshape) & (rs & Hrs & Hhd & Htl))
           end.
           rewrite <- Hw' in Hg, Hcs, Hrs. simpl in *. split; [done|]. split.
           ++ exists ((endpoint, ps) :: cs). split.
              { rewrite Hcs. by rewrite <- app_assoc. }
              right. exists cs. split; [done|].
              destruct Hshape as [->|(rest & -> & Hrest)]; constructor; done.
           ++ exists (request_of ctx endpoint ps :: rs).
              split; [rewrite Hrs; by rewrite <- app_assoc|].
              simpl. split; [constructor; [apply request_of_params|constructor]|].
              rewrite drop_0. rewrite <- (take_drop 1 rs).
              apply Forall_app. split; [|done]. exact Hhd.
      * subst w'. split; [done|]. split.
        -- exists [(endpoint, ps)]. split; [done|]. right. by exists [].
        -- exists [request_of ctx endpoint ps]. split; [done|]. simpl.
           split; [constructor; [apply request_of_params|constructor]|constructor].
      * subst w'. split; [done|]. split.
        -- exists [(endpoint, ps)]. split; [done|]. right. by exists [].
        -- exists [request_of ctx endpoint ps]. split; [done|]. simpl.
           split; [constructor; [apply request_of_params|constructor]|constructor].
    + rewrite (graph_get_unbound _ _ _ _ Htok) in Hw'. simpl in Hw'.
      subst w'. split; [done|]. split.
      * exists [(endpoint, ps)]. split; [done|]. right. by exists [].
      * exists []. rewrite app_nil_r. simpl. auto.
Qed.

Lemma graph_get_paginated_world fuel ctx endpoint max_count ps w :
  snd (graph_get_paginated fuel ctx endpoint max_count ps w)
  = snd (paginate fuel ctx max_count [] endpoint ps w).
Proof.
  unfold graph_get_paginated. st_unfold.
  by destruct (paginate _ _ _ _ _ _ _) as [[l| |] w'].
Qed.

Lemma graph_get_paginated_result fuel ctx endpoint max_count ps w :
  fst (graph_get_paginated fuel ctx endpoint max_count ps w)
  = match fst (paginate fuel ctx max_count [] endpoint ps w) with
    | Ok l => Ok (slice_to l max_count)
    | Raise e => Raise e
    | OutOfFuel => OutOfFuel
    end.
Proof.
  unfold graph_get_paginated. st_unfold.
  by destruct (paginate _ _ _ _ _ _ _) as [[l| |] w'].
Qed.

(** C4. A call of [graph_get] whose endpoint starts with "http" sends that
    endpoint as the URL and no query parameters, whatever parameters it was
    given. In [graph_get_paginated] every call of [graph_get] after the
    first is given the empty dict, and every request after the first
    carries no parameters. *)
Theorem continuation_reference_parameters :
  (forall ctx endpoint ps w,
     token_bound ctx ->
     String.prefix "http" endpoint = true ->
     exists rq,
       issued w (snd (graph_get ctx endpoint ps w)) = [rq] /\
       url rq = endpoint /\ params rq = None) /\
  (forall fuel ctx endpoint max_count ps w,
     let w' := snd (graph_get_paginated fuel ctx endpoint max_count ps w) in
     Forall (fun c => snd c = []) (drop 1 (called w w')) /\
     Forall no_parameters (drop 1 (issued w w'))).
Proof.
  split.
  - intros ctx endpoint ps w Htok Hfull.
    exists (request_of ctx endpoint ps).
    rewrite (graph_get_bound _ _ _ _ Htok). unfold issued. simpl.
    rewrite drop_app_length, Hfull. done.
  - intros fuel ctx endpoint max_count ps w w'. subst w'.
    rewrite graph_get_paginated_world. unfold issued, called.
    destruct (paginate_trace fuel ctx max_count [] endpoint ps w)
      as (_ & (cs & -> & Hcs) & (rs & -> & _ & Hrs)).
    rewrite !drop_app_length. split; [|done].
    destruct Hcs as [->|(rest & -> & Hrest)]; simpl; [constructor|].
    by rewrite drop_0.
Qed.

Lemma continuation_reference_parameters_witness :
  let link := "https://graph.microsoft.com/v1.0/me/messages?$skip=10" in
  let w := Scenario.always Scenario.last_page in
  token_bound Scenario.signed_in /\
  String.prefix "http" link = true /\
  exists rq,
    issued w (snd (graph_get Scenario.signed_in link [("$top", PInt 10)] w))
    = [rq] /\
    url rq = link /\ params rq = None.
Proof.
  split; [vm_compute; reflexivity|]. split; [reflexivity|].
  apply (proj1 continuation_reference_parameters);
    [vm_compute; reflexivity | reflexivity].
Defined.

(** *** Pagination against a finite sequence of pages *)

Lemma serves_step w p rest rq cs :
  serves w (p :: rest) ->
  graph w (length (http_log w)) rq = p /\
  serves {| graph := graph w; http_log := http_log w ++ [rq]; calls := cs |}
         rest.
Proof.
  intros Hs. split.
  - rewrite <- (Nat.add_0_r (length (http_log w))). by apply Hs.
  - intros k q rq' Hq. simpl. rewrite length_app. simpl.
    replace (length (http_log w) + 1 + k)%nat
      with (length (http_log w) + S k)%nat by lia.
    by apply Hs.
Qed.

Lemma items_of_page p body :
  page_of p = Some body -> items_of p = default [] (value body).
Proof. unfold items_of. by intros ->. Qed.

Lemma continues_page p body :
  page_of p = Some body -> continues p = truthy (nextLink body).
Proof. unfold continues. by intros ->. Qed.

Lemma collected_cons p pages :
  collected (p :: pages) = items_of p ++ collected pages.
Proof. reflexivity. Qed.

Lemma paginate_pages ctx max_count :
  token_bound ctx ->
  forall pages fuel acc endpoint ps w,
    len acc < max_count ->
    serves w pages ->
    (exists p, last pages = Some p /\ continues p = false) ->
    (length pages <= fuel)%nat ->
    exists k p,
      (1 <= k <= length pages)%nat /\
      pages !! (k - 1)%nat = Some p /\
      let r := paginate fuel ctx max_count acc endpoint ps w in
      length (http_log (snd r)) = (length (http_log w) + k)%nat /\
      (forall j q, (S j < k)%nat -> pages !! j = Some q ->
         continues q = true /\
         len (acc ++ collected (take (S j) pages)) < max_count) /\
      match page_of p with
      | None => exists e, verdict p = Raise e /\ fst r = Raise e
      | Some _ =>
          (continues p = false \/
           max_count <= len (acc ++ collected (take k pages))) /\
          fst r = Ok (acc ++ collected (take k pages))
      end.
Proof.
  intros Htok.
  induction pages as [|p rest IH]; intros fuel acc endpoint ps w Hacc Hs Hlast Hfuel.
  { destruct Hlast as (p & Hp & _). done. }
  destruct fuel as [|fuel]; [simpl in Hfuel; lia|].
  destruct (serves_step w p rest (request_of ctx endpoint ps)
              (calls w ++ [(endpoint, ps)]) Hs) as [Hp Hrest].
  set (w1 := {| graph := graph w;
                http_log := http_log w ++ [request_of ctx endpoint ps];
                calls := calls w ++ [(endpoint, ps)] |}) in *.
  assert (Hlog1 : length (http_log w1) = (length (http_log w) + 1)%nat).
  { simpl. rewrite length_app. reflexivity. }
  assert (Hrun : paginate (S fuel) ctx max_count acc endpoint ps w
                 = match verdict p with
                   | Ok resp =>
                       if negb (truthy (nextLink resp))
                          || (max_count <=? len (acc ++ default [] (value resp)))
                       then (Ok (acc ++ default [] (value resp)), w1)
                       else paginate fuel ctx max_count
                              (acc ++ default [] (value resp))
                              (default "" (nextLink resp)) [] w1
                   | Raise e => (Raise e, w1)
                   | OutOfFuel => (OutOfFuel, w1)
                   end).
  { simpl. destruct (Z.ltb_spec (len acc) max_count); [|lia]. simpl.
    unfold bind at 1. rewrite (graph_get_bound _ _ _ _ Htok), Hp.
    fold w1. destruct (verdict p) as [resp| |]; try reflexivity.
    by destruct (_ || _). }
  pose proof (verdict_page p) as Hv.
  destruct (page_of p) as [body|] eqn:Hpage.
  - rewrite Hv in Hrun.
    rewrite <- (items_of_page _ _ Hpage) in Hrun.
    rewrite <- (continues_page _ _ Hpage) in Hrun.
    destruct (negb (continues p) || (max_count <=? len (acc ++ items_of p)))
      eqn:Hstop.
    + exists 1%nat, p. split; [simpl; lia|]. split; [done|].
      rewrite Hrun. simpl. split; [rewrite length_app; reflexivity|].
      split; [intros; lia|]. rewrite Hpage.
      rewrite take_0, collected_cons. simpl. rewrite app_nil_r.
      split; [|done].
      apply orb_true_iff in Hstop as [H|H].
      * left. by destruct (continues p).
      * right. by apply Z.leb_le.
    + apply orb_false_iff in Hstop as [Hc Hlt].
      apply negb_false_iff in Hc. apply Z.leb_gt in Hlt.
      assert (Hlast' : exists q, last rest = Some q /\ continues q = false).
      { destruct Hlast as (q & Hq & Hqc). destruct rest as [|q0 rest'].
        - simpl in Hq. injection Hq as <-. congruence.
        - exists q. by rewrite last_cons_cons in Hq. }
      destruct (IH fuel (acc ++ items_of p) (default "" (nextLink body)) []
                  w1 Hlt Hrest Hlast' ltac:(simpl in Hfuel; lia))
        as (k & q & Hk & Hq & Hlen & Hbefore & Hend).
      exists (S k), q. split; [simpl; lia|]. split.
      { replace (S k - 1)%nat with (S (k - 1)) by lia. exact Hq. }
      rewrite Hrun. simpl in Hlen, Hend |- *.
      split; [rewrite Hlen, length_app; simpl; lia|]. split.
      * intros [|j] q' Hj Hq'.
        -- simpl in Hq'. injection Hq' as <-. split; [done|].
           rewrite take_0, collected_cons. simpl. by rewrite app_nil_r.
        -- simpl in Hq'. destruct (Hbefore j q' ltac:(lia) Hq') as [? Hl].
           split; [done|].
           rewrite collected_cons. by rewrite app_assoc.
      * rewrite collected_cons, app_assoc. exact Hend.
  - destruct Hv as [e He]. rewrite He in Hrun.
    exists 1%nat, p. split; [simpl; lia|]. split; [done|].
    rewrite Hrun. simpl. split; [rewrite length_app; reflexivity|].
    split; [intros; lia|]. rewrite Hpage. by exists e.
Qed.

Lemma slice_to_take {A} (l : list A) n :
  0 <= n -> slice_to l n = take (Z.to_nat n) l.
Proof. intros Hn. unfold slice_to. by destruct (Z.ltb_spec n 0); [lia|]. Qed.

Lemma scripted_serves pages : serves (Scenario.scripted pages) pages.
Proof. intros k p rq Hp. simpl. by rewrite Hp. Qed.

(** C3. Against a remote that answers the successive requests with a
    finite sequence of pages, and with [max_count >= 1], the loop ends
    within as many iterations as there are pages, after some number [k] of
    requests. Each of the first [k - 1] answers was a page with a
    continuation reference that left the total below [max_count]. The
    [k]-th answer ended the loop: either it is a failure, and the call
    raises the very exception [graph_get] raises for that answer and
    returns no items, or it is a page without continuation reference or
    one that brings the total to [max_count], and the call returns the
    first [max_count] items collected. *)
Theorem graph_get_paginated_pages fuel ctx endpoint max_count ps w pages :
  1 <= max_count ->
  token_bound ctx ->
  serves w pages ->
  (exists p, last pages = Some p /\ continues p = false) ->
  (length pages <= fuel)%nat ->
  exists k p,
    (1 <= k <= length pages)%nat /\
    pages !! (k - 1)%nat = Some p /\
    let r := graph_get_paginated fuel ctx endpoint max_count ps w in
    let seen := take k pages in
    length (issued w (snd r)) = k /\
    (forall j q, (S j < k)%nat -> pages !! j = Some q ->
       continues q = true /\
       len (collected (take (S j) pages)) < max_count) /\
    match page_of p with
    | None => exists e, verdict p = Raise e /\ fst r = Raise e
    | Some _ =>
        (continues p = false \/ max_count <= len (collected seen)) /\
        fst r = Ok (take (Z.to_nat max_count) (collected seen))
    end.
Proof.
  intros Hmax Htok Hs Hlast Hfuel.
  destruct (paginate_pages ctx max_count Htok pages fuel [] endpoint ps w
              ltac:(unfold len; simpl; lia) Hs Hlast Hfuel)
    as (k & p & Hk & Hp & Hlen & Hbefore & Hend).
  exists k, p. split; [done|]. split; [done|].
  simpl in *. rewrite graph_get_paginated_world, graph_get_paginated_result.
  split; [|split].
  - unfold issued. rewrite length_drop, Hlen. lia.
  - exact Hbefore.
  - destruct (page_of p).
    + destruct Hend as [Hstop ->]. split; [done|].
      by rewrite slice_to_take by lia.
    + destruct Hend as (e & Hv & ->). by exists e.
Qed.

(** Pages of ten, a bound of 25: three requests, 25 items. *)
Lemma graph_get_paginated_pages_witness :
  let pages := [Scenario.page_with_link; Scenario.page_with_link;
                Scenario.page_with_link; Scenario.last_page] in
  let r := graph_get_paginated 4 Scenario.signed_in
             "me/mailFolders/inbox/messages" 25 [("$top", PInt 10)]
             (Scenario.scripted pages) in
  exists k p,
    (1 <= k <= 4)%nat /\
    pages !! (k - 1)%nat = Some p /\
    length (issued (Scenario.scripted pages) (snd r)) = k /\
    (forall j q, (S j < k)%nat -> pages !! j = Some q ->
       continues q = true /\ len (collected (take (S j) pages)) < 25) /\
    match page_of p with
    | None => exists e, verdict p = Raise e /\ fst r = Raise e
    | Some _ =>
        (continues p = false \/ 25 <= len (collected (take k pages))) /\
        fst r = Ok (take 25 (collected (take k pages)))
    end.
Proof.
  intros pages r.
  apply (graph_get_paginated_pages 4 Scenario.signed_in
           "me/mailFolders/inbox/messages" 25 [("$top", PInt 10)]
           (Scenario.scripted pages) pages).
  - lia.
  - vm_compute. reflexivity.
  - apply scripted_serves.
  - exists Scenario.last_page. split; reflexivity.
  - simpl. lia.
Defined.

Example paginated_25_of_pages_of_10 :
  let w := Scenario.scripted
             [Scenario.page_with_link; Scenario.page_with_link;
              Scenario.page_with_link; Scenario.last_page] in
  let r := graph_get_paginated 4 Scenario.signed_in
             "me/mailFolders/inbox/messages" 25 [("$top", PInt 10)] w in
  fst r = Ok (Scenario.ten ++ Scenario.ten ++ take 5 Scenario.ten) /\
  length (issued w (snd r)) = 3%nat.
Proof. vm_compute. split; reflexivity. Qed.

(** A page of ten and then status 503: the call raises the error of the
    second request and returns none of the ten items. *)
Example paginated_failure_propagates :
  let w := Scenario.scripted [Scenario.page_with_link; Response 503 None] in
  let r := graph_get_paginated 2 Scenario.signed_in
             "me/mailFolders/inbox/messages" 25 [("$top", PInt 10)] w in
  fst r = Raise (UpstreamError 503) /\
  length (issued w (snd r)) = 2%nat.
Proof. vm_compute. split; reflexivity. Qed.

(** Without a bound token the first call fails and nothing is returned. *)
Lemma graph_get_paginated_unbound fuel ctx endpoint max_count ps w :
  1 <= max_count -> ~ token_bound ctx -> (1 <= fuel)%nat ->
  fst (graph_get_paginated fuel ctx endpoint max_count ps w)
  = Raise AuthMissing.
Proof.
  intros Hmax Hno Hfuel. destruct fuel as [|fuel]; [lia|].
  rewrite graph_get_paginated_result. simpl.
  destruct (Z.ltb_spec (len (@nil item)) max_count) as [_|H];
    [|unfold len in H; simpl in H; lia].
  simpl. unfold bind at 1. rewrite graph_get_unbound; [done|].
  unfold token_bound in Hno. by destruct (truthy _).
Qed.

(** *** Termination of the pagination loop *)

Lemma verdict_Ok_page resp body :
  verdict resp = Ok body -> page_of resp = Some body.
Proof.
  intros Hv. pose proof (verdict_page resp) as H.
  destruct (page_of resp) as [b|]; [congruence|].
  destruct H as [e He]. congruence.
Qed.

Lemma verdict_not_OutOfFuel resp : verdict resp <> OutOfFuel.
Proof.
  pose proof (verdict_page resp) as H.
  destruct (page_of resp); [congruence|]. destruct H as [e He]. congruence.
Qed.

Lemma paginate_terminates ctx max_count :
  forall fuel acc endpoint ps w,
    progresses w ->
    (Z.to_nat (max_count - len acc) <= fuel)%nat ->
    fst (paginate fuel ctx max_count acc endpoint ps w) <> OutOfFuel.
Proof.
  induction fuel as [|fuel IH]; intros acc endpoint ps w Hprog Hfuel; simpl.
  - destruct (Z.ltb_spec (len acc) max_count); [lia|]. done.
  - destruct (Z.ltb_spec (len acc) max_count); [|done]. simpl.
    unfold bind at 1.
    destruct (truthy (get_state ctx "microsoft_token")) eqn:Htok.
    + rewrite (graph_get_bound _ _ _ _ Htok).
      destruct (verdict _) as [resp| |] eqn:Hv; [| done |].
      * apply verdict_Ok_page in Hv.
        destruct (truthy (nextLink resp)) eqn:Hnext; simpl; [|done].
        destruct (Z.leb_spec max_count (len (acc ++ default [] (value resp))));
          [done|].
        apply IH; [exact Hprog|].
        pose proof (Hprog _ _ _ Hv Hnext) as Hne.
        unfold len in *. rewrite length_app in *.
        destruct (default [] (value resp)); [done|]. simpl. lia.
      * by apply verdict_not_OutOfFuel in Hv.
    + by rewrite (graph_get_unbound _ _ _ _ Htok).
Qed.

Lemma paginate_stuck max_count :
  1 <= max_count ->
  forall fuel endpoint ps w,
    graph w = (fun _ _ => Scenario.empty_page_with_link) ->
    fst (paginate fuel Scenario.signed_in max_count [] endpoint ps w)
    = OutOfFuel.
Proof.
  intros Hmax.
  assert (Htok : token_bound Scenario.signed_in) by (vm_compute; reflexivity).
  induction fuel as [|fuel IH]; intros endpoint ps w Hg; simpl;
    (destruct (Z.ltb_spec (len (@nil item)) max_count) as [_|H];
       [|unfold len in H; simpl in H; lia]); simpl; [done|].
  unfold bind at 1. rewrite (graph_get_bound _ _ _ _ Htok), Hg. simpl.
  destruct (Z.leb_spec max_count (len (@nil item))) as [H|_];
    [unfold len in H; simpl in H; lia|].
  by apply IH.
Qed.

(** C9. With [max_count >= 1], the loop ends within [max_count] iterations
    when every page of the remote that carries a continuation reference has
    at least one item. Against a remote whose pages are empty and always
    point further it never ends: no amount of fuel suffices. *)
Theorem graph_get_paginated_termination :
  (forall fuel ctx endpoint max_count ps w,
     1 <= max_count ->
     progresses w ->
     (Z.to_nat max_count <= fuel)%nat ->
     fst (graph_get_paginated fuel ctx endpoint max_count ps w) <> OutOfFuel)
  /\
  (forall fuel,
     fst (graph_get_paginated fuel Scenario.signed_in
            "me/mailFolders/inbox/messages" 10 [("$top", PInt 10)]
            (Scenario.always Scenario.empty_page_with_link))
     = OutOfFuel).
Proof.
  split.
  - intros fuel ctx endpoint max_count ps w Hmax Hprog Hfuel.
    rewrite graph_get_paginated_result.
    pose proof (paginate_terminates ctx max_count fuel [] endpoint ps w Hprog)
      as Hterm.
    destruct (fst (paginate _ _ _ _ _ _ _)); try done.
    apply Hterm. unfold len. simpl. lia.
  - intros fuel. rewrite graph_get_paginated_result.
    by rewrite paginate_stuck.
Qed.

Lemma graph_get_paginated_termination_witness :
  let w := Scenario.always Scenario.page_with_link in
  1 <= 25 /\ progresses w /\ (Z.to_nat 25 <= 25)%nat /\
  fst (graph_get_paginated 25 Scenario.signed_in
         "me/mailFolders/inbox/messages" 25 [("$top", PInt 25)] w)
  <> OutOfFuel.
Proof.
  assert (Hprog : progresses (Scenario.always Scenario.page_with_link)).
  { intros n rq body Hpage Hnext. simpl in Hpage.
    injection Hpage as <-. discriminate. }
  split; [lia|]. split; [exact Hprog|]. split; [simpl; lia|].
  apply (proj1 graph_get_paginated_termination); [lia | exact Hprog | simpl; lia].
Defined.

(** *** The search tiers *)

Lemma resolve_folder_total ctx folder w :
  exists endpoint w0, resolve_folder ctx folder w = (Ok endpoint, w0).
Proof.
  unfold resolve_folder. case_bool_decide; [by eexists _, _|].
  destruct (WELL_KNOWN_FOLDERS !! lower folder); [by eexists _, _|].
  unfold bind at 1. unfold try_except. unfold bind at 1.
  destruct (graph_get ctx "me/mailFolders" _ w) as [[resp| |] w1] eqn:Hget.
  - destruct (value resp) as [[|first rest]|]; try by eexists _, _.
    destruct (item_id first); by eexists _, _.
  - by eexists _, _.
  - exfalso. destruct (truthy (get_state ctx "microsoft_token")) eqn:Htok.
    + rewrite (graph_get_bound _ _ _ _ Htok) in Hget.
      injection Hget as Hv _. by apply verdict_not_OutOfFuel in Hv.
    + by rewrite (graph_get_unbound _ _ _ _ Htok) in Hget.
Qed.

Lemma search_tiers_terms count query from_address subject ha uo :
  search_tiers count query from_address subject ha uo
  = ("combined search",
     combined_params count query from_address subject ha uo)
    :: term_tiers count
         [("subject", subject); ("from", from_address); ("query", query)].
Proof.
  unfold search_tiers, term_tiers. simpl.
  destruct subject as [s|], from_address as [f|], query as [q|]; simpl;
    repeat case_bool_decide; reflexivity.
Qed.

Section Tiers.

Variables (fuel : nat) (ctx : Context) (endpoint : string) (count : Z).

Let fetch : dict -> ST world (list item) :=
  graph_get_paginated fuel ctx endpoint count.

(** A term tier with results ends the loop with them. *)
Lemma individual_terms_hit terms :
  forall pre label ps post w w1 w2 emails,
    term_tiers count terms = pre ++ (label, ps) :: post ->
    falls_through fetch pre w w1 ->
    fetch ps w1 = (Ok emails, w2) ->
    emails <> [] ->
    individual_terms fuel ctx endpoint count terms w
    = (Ok (Some (emails, label)), w2).
Proof.
  induction terms as [|[term_name term_value] terms IH];
    intros pre label ps post w w1 w2 emails Htiers Hpre Hfetch Hne.
  { by destruct pre. }
  simpl in Htiers |- *.
  destruct (truthy term_value); simpl in Htiers; [|eauto].
  unfold bind at 1. unfold try_except. unfold bind at 1.
  fold (fetch (fallback_params count term_name (default "" term_value))).
  destruct pre as [|[l0 p0] pre]; simpl in Htiers;
    injection Htiers as Hl Hp Hrest.
  - subst label ps. inversion Hpre; subst. rewrite Hfetch.
    by destruct emails.
  - subst l0 p0. inversion Hpre; subst;
      match goal with H : fetch _ w = _ |- _ => rewrite H end;
      simpl; eauto.
Qed.

(** When every term tier fails or is empty the loop falls through. *)
Lemma individual_terms_miss terms :
  forall w w1,
    falls_through fetch (term_tiers count terms) w w1 ->
    individual_terms fuel ctx endpoint count terms w = (Ok None, w1).
Proof.
  induction terms as [|[term_name term_value] terms IH]; intros w w1 Hft.
  { by inversion Hft. }
  simpl in Hft |- *.
  destruct (truthy term_value); simpl in Hft; [|eauto].
  unfold bind at 1. unfold try_except. unfold bind at 1.
  fold (fetch (fallback_params count term_name (default "" term_value))).
  inversion Hft; subst;
    match goal with H : fetch _ w = _ |- _ => rewrite H end;
    simpl; eauto.
Qed.

End Tiers.

Lemma append_assoc s1 s2 s3 : (s1 +:+ s2) +:+ s3 = s1 +:+ s2 +:+ s3.
Proof.
  induction s1 as [|c s1 IH]; [done|].
  change (String c ((s1 +:+ s2) +:+ s3) = String c (s1 +:+ s2 +:+ s3)).
  by rewrite IH.
Qed.

(** For a non-empty result the returned text names the strategy. *)
Lemma format_names_strategy emails strategy :
  emails <> [] ->
  exists rest,
    _format_search_results emails strategy
    = "Found " +:+ pretty (length emails) +:+ " emails (via " +:+ strategy
      +:+ "):" +:+ rest.
Proof.
  destruct emails as [|email emails]; [done|]. intros _.
  unfold _format_search_results.
  set (header := "Found " +:+ _).
  change (entries 1 (email :: emails))
    with (entry_lines 1 email ++ entries 2 emails).
  unfold entry_lines. cbn [app join].
  eexists. subst header.
  rewrite !append_assoc. reflexivity.
Qed.

(** The dispatch of [search_emails] over its tiers. *)
Lemma search_emails_dispatch fuel ctx query folder from_address subject
    has_attachments unread_only count w endpoint w0 :
  resolve_folder ctx folder w = (Ok endpoint, w0) ->
  let c := Z.min 50 (Z.max 1 count) in
  let fetch := graph_get_paginated fuel ctx endpoint c in
  let tiers := search_tiers c query from_address subject
                            has_attachments unread_only in
  let run := search_emails fuel ctx query folder from_address subject
                           has_attachments unread_only count w in
  (forall pre label ps post w1 w2 emails,
     tiers = pre ++ (label, ps) :: post ->
     falls_through fetch pre w0 w1 ->
     fetch ps w1 = (Ok emails, w2) ->
     emails <> [] ->
     run = (Ok (_format_search_results emails label), w2)) /\
  (forall w1,
     falls_through fetch tiers w0 w1 ->
     run = match fetch (recent_params c) w1 with
           | (Ok emails, w2) =>
               (Ok (_format_search_results emails "recent emails fallback"),
                w2)
           | (Raise e, w2) => (Raise e, w2)
           | (OutOfFuel, w2) => (OutOfFuel, w2)
           end).
Proof.
  intros Hfolder c fetch tiers run. subst tiers run.
  rewrite search_tiers_terms.
  split;
    (unfold search_emails, search_emails_found; fold c;
     unfold bind at 1 2; rewrite Hfolder;
     unfold bind at 1; unfold try_except; unfold bind at 1;
     fold (fetch (combined_params c query from_address subject
                                  has_attachments unread_only))).
  - intros pre label ps post w1 w2 emails Htiers Hpre Hfetch Hne.
    destruct pre as [|[l0 p0] pre]; simpl in Htiers;
      injection Htiers as Hl Hp Hrest.
    + subst label ps. inversion Hpre; subst. rewrite Hfetch.
      by destruct emails.
    + subst l0 p0.
      assert (Hind : forall wa,
                falls_through fetch pre wa w1 ->
                individual_terms fuel ctx endpoint c
                  [("subject", subject); ("from", from_address);
                   ("query", query)] wa
                = (Ok (Some (emails, label)), w2)).
      { intros wa Hwa. eapply individual_terms_hit; eauto. }
      inversion Hpre; subst;
        match goal with H : fetch _ w0 = _ |- _ => rewrite H end;
        simpl; unfold bind at 1; rewrite Hind by done; reflexivity.
  - intros w1 Hft.
    assert (Hind : forall wa,
              falls_through fetch
                (term_tiers c [("subject", subject); ("from", from_address);
                               ("query", query)]) wa w1 ->
              individual_terms fuel ctx endpoint c
                [("subject", subject); ("from", from_address);
                 ("query", query)] wa
              = (Ok None, w1)).
    { intros wa Hwa. by apply individual_terms_miss. }
    change (base_params c) with (recent_params c).
    inversion Hft; subst;
      match goal with H : fetch _ w0 = _ |- _ => rewrite H end;
      simpl; unfold bind at 1; rewrite Hind by done;
      unfold bind at 1; fold (fetch (recent_params c));
      by destruct (fetch (recent_params c) w1) as [[emails| |] w2].
Qed.

(** C7, as the code has it. Once the folder is resolved, [search_emails]
    goes through the tiers in order: the combined search, then the
    non-empty terms among subject, sender and free text, each between
    double quotes and alone. A tier that fails or comes back empty is
    passed over. The first tier with results gives the answer, and the
    returned text opens with a header that names that tier. When every
    tier was passed over, the unfiltered most-recent-first fetch is run: its
    failure is the failure of the search; its results are returned under
    the header of the final tier; and when it finds nothing the fixed text
    for an empty result is returned. *)
Theorem search_emails_tiers fuel ctx query folder from_address subject
    has_attachments unread_only count w endpoint w0 :
  resolve_folder ctx folder w = (Ok endpoint, w0) ->
  let c := Z.min 50 (Z.max 1 count) in
  let fetch := graph_get_paginated fuel ctx endpoint c in
  let tiers := search_tiers c query from_address subject
                            has_attachments unread_only in
  let run := search_emails fuel ctx query folder from_address subject
                           has_attachments unread_only count w in
  (forall pre label ps post w1 w2 emails,
     tiers = pre ++ (label, ps) :: post ->
     falls_through fetch pre w0 w1 ->
     fetch ps w1 = (Ok emails, w2) ->
     emails <> [] ->
     run = (Ok (_format_search_results emails label), w2) /\
     names_tier label (length emails) (_format_search_results emails label))
  /\
  (forall w1,
     falls_through fetch tiers w0 w1 ->
     match fetch (recent_params c) w1 with
     | (Ok emails, w2) =>
         run = (Ok (_format_search_results emails "recent emails fallback"),
                w2) /\
         (emails <> [] ->
          names_tier "recent emails fallback" (length emails)
            (_format_search_results emails "recent emails fallback")) /\
         (emails = [] ->
          _format_search_results emails "recent emails fallback" = NO_EMAILS)
     | (Raise e, w2) => run = (Raise e, w2)
     | (OutOfFuel, w2) => run = (OutOfFuel, w2)
     end).
Proof.
  intros Hfolder c fetch tiers run.
  destruct (search_emails_dispatch fuel ctx query folder from_address subject
              has_attachments unread_only count w endpoint w0 Hfolder)
    as [Hhit Hlast].
  fold c fetch tiers run in Hhit, Hlast. split.
  - intros pre label ps post w1 w2 emails Htiers Hpre Hfetch Hne.
    split; [by eapply Hhit | by apply format_names_strategy].
  - intros w1 Hft. rewrite (Hlast w1 Hft).
    destruct (fetch (recent_params c) w1) as [[emails| |] w2]; [|done..].
    split; [done|]. split; [apply format_names_strategy | by intros ->].
Qed.

Lemma search_emails_tiers_witness :
  let w := Scenario.subject_only in
  resolve_folder Scenario.signed_in "inbox" w
  = (Ok "me/mailFolders/inbox/messages", w) /\
  fst (search_emails 1 Scenario.signed_in (Some "budget") "inbox" None
                     (Some "report") None None 10 w)
  = Ok (_format_search_results [Scenario.mail "7"] "subject search") /\
  names_tier "subject search" 1
    (_format_search_results [Scenario.mail "7"] "subject search").
Proof.
  intros w.
  assert (Hfolder : resolve_folder Scenario.signed_in "inbox" w
                    = (Ok "me/mailFolders/inbox/messages", w))
    by (vm_compute; reflexivity).
  split; [exact Hfolder|].
  pose proof (proj1 (search_emails_tiers 1 Scenario.signed_in (Some "budget")
                       "inbox" None (Some "report") None None 10 w _ _
                       Hfolder)) as Hhit.
  assert (Hboth : exists w2,
             search_emails 1 Scenario.signed_in (Some "budget") "inbox" None
                           (Some "report") None None 10 w
             = (Ok (_format_search_results [Scenario.mail "7"]
                                           "subject search"), w2) /\
             names_tier "subject search" 1
               (_format_search_results [Scenario.mail "7"] "subject search")).
  { eexists. eapply (Hhit [(_, _)] "subject search" _ [(_, _)]).
    - reflexivity.
    - eapply ft_empty; [reflexivity | apply ft_done].
    - reflexivity.
    - discriminate. }
  destruct Hboth as (w2 & Hrun & Hnames).
  split; [by rewrite Hrun | exact Hnames].
Defined.

(** C7, as the claim has it, fails. On an empty folder every tier comes
    back empty and the search returns the fixed text for an empty result,
    in which no tier is named. *)
Lemma search_emails_empty_names_no_tier :
  let w := Scenario.always
             (Response 200 (Some {| value := Some []; nextLink := None |})) in
  fst (search_emails 1 Scenario.signed_in (Some "budget") "inbox" None
                     (Some "report") None None 10 w)
  = Ok NO_EMAILS /\
  forallb (fun label => negb (contains label NO_EMAILS)) tier_labels = true.
Proof. vm_compute. split; reflexivity. Qed.

(** Every filtered tier fails for want of a token, and so does the final
    fetch: its failure is the failure of the search. *)
Example search_emails_final_failure :
  fst (search_emails 1 Scenario.anonymous (Some "budget") "inbox" None
                     (Some "report") None None 10
                     (Scenario.always Scenario.last_page))
  = Raise AuthMissing.
Proof. vm_compute. reflexivity. Qed.

(** *** What the tools send and return *)

Section Post.

Variable P : request -> Prop.

Lemma sends_refl w : sends P w w.
Proof. exists []. by rewrite app_nil_r. Qed.

Lemma sends_trans w1 w2 w3 : sends P w1 w2 -> sends P w2 w3 -> sends P w1 w3.
Proof.
  intros (r1 & H1 & F1) (r2 & H2 & F2). exists (r1 ++ r2). split.
  - by rewrite H2, H1, app_assoc.
  - by apply Forall_app.
Qed.

Lemma post_ret {A} (Q : A -> Prop) a : Q a -> post P Q (ret a).
Proof.
  intros Ha w. split; [apply sends_refl|]. simpl. by intros ? [= <-].
Qed.

Lemma post_raise {A} (Q : A -> Prop) e : post P Q (raise e).
Proof. intros w. split; [apply sends_refl|]. done. Qed.

Lemma post_bind {A B} (Q1 : A -> Prop) (Q2 : B -> Prop) m k :
  post P Q1 m -> (forall a, Q1 a -> post P Q2 (k a)) -> post P Q2 (bind m k).
Proof.
  intros Hm Hk w. unfold bind. destruct (Hm w) as [Hs Hq].
  destruct (m w) as [[a| |] w1]; simpl in *; [|done..].
  destruct (Hk a (Hq a eq_refl) w1) as [Hs' Hq'].
  split; [eapply sends_trans; eauto | done].
Qed.

Lemma post_try {A} (Q : A -> Prop) (m : ST world A) h :
  post P Q m -> (forall e, post P Q (h e)) -> post P Q (try_except m h).
Proof.
  intros Hm Hh w. unfold try_except. destruct (Hm w) as [Hs Hq].
  destruct (m w) as [[a| |] w1]; simpl in *; [done| |done].
  destruct (Hh e w1) as [Hs' Hq'].
  split; [eapply sends_trans; eauto | done].
Qed.

Lemma post_weaken {A} (Q Q' : A -> Prop) m :
  post P Q m -> (forall a, Q a -> Q' a) -> post P Q' m.
Proof. intros Hm HQ w. destruct (Hm w) as [Hs Hq]. split; auto. Qed.

(** [graph_get] sends at most the request it builds. *)
Lemma post_graph_get ctx endpoint ps :
  P (request_of ctx endpoint ps) ->
  post P (fun _ => True) (graph_get ctx endpoint ps).
Proof.
  intros HP w. split; [|done]. rewrite graph_get_world. simpl.
  eexists. split; [reflexivity|].
  destruct (truthy _); repeat constructor. exact HP.
Qed.

(** [graph_get_paginated] sends requests with the given parameters or with
    none, and returns at most [max_count] items. *)
Lemma post_graph_get_paginated fuel ctx endpoint max_count ps :
  0 <= max_count ->
  (forall rq, params rq = None \/ params rq = Some ps \/ params rq = Some []
              -> P rq) ->
  post P (fun l => len l <= max_count)
       (graph_get_paginated fuel ctx endpoint max_count ps).
Proof.
  intros Hmax HP w. split.
  - rewrite graph_get_paginated_world.
    destruct (paginate_trace fuel ctx max_count [] endpoint ps w)
      as (_ & _ & (rs & Hrs & Hhd & Htl)).
    exists rs. split; [done|].
    rewrite <- (take_drop 1 rs). apply Forall_app. split.
    + eapply Forall_impl; [exact Hhd|]. intros rq [H|H]; apply HP; auto.
    + eapply Forall_impl; [exact Htl|]. intros rq [H|H]; apply HP; auto.
  - intros l. rewrite graph_get_paginated_result.
    destruct (fst (paginate _ _ _ _ _ _ _)) as [l'| |]; [|done..].
    intros [= <-]. rewrite slice_to_take by done.
    unfold len. rewrite length_take. lia.
Qed.

End Post.

Lemma top_in_range_params rq ps :
  top_ok ps ->
  params rq = None \/ params rq = Some ps \/ params rq = Some [] ->
  top_in_range rq.
Proof.
  intros Hps [H|[H|H]] d v Hd Hv; rewrite H in Hd; try done;
    injection Hd as <-; [by apply Hps | done].
Qed.

Lemma dict_get_set_ne k k' v d :
  k <> k' -> dict_get k' (dict_set k v d) = dict_get k' d.
Proof.
  intros Hne. induction d as [|[k0 v0] d IH]; simpl.
  - by rewrite bool_decide_eq_false_2.
  - case_bool_decide; simpl.
    + subst k0. by rewrite !bool_decide_eq_false_2.
    + by rewrite IH.
Qed.

Lemma top_ok_base c : 1 <= c <= 50 -> top_ok (base_params c).
Proof. intros Hc v [= <-]. eauto. Qed.

Lemma top_ok_combined c q f s ha uo :
  1 <= c <= 50 -> top_ok (combined_params c q f s ha uo).
Proof.
  intros Hc v. unfold combined_params.
  repeat match goal with
         | |- context [ match ?l with [] => _ | _ :: _ => _ end ] =>
             destruct l
         end;
    rewrite ?dict_get_set_ne by done; by apply top_ok_base.
Qed.

Lemma top_ok_fallback c n t : 1 <= c <= 50 -> top_ok (fallback_params c n t).
Proof. intros Hc v [= <-]. eauto. Qed.

Lemma post_resolve_folder ctx folder :
  post top_in_range (fun _ => True) (resolve_folder ctx folder).
Proof.
  unfold resolve_folder. case_bool_decide; [by apply post_ret|].
  destruct (WELL_KNOWN_FOLDERS !! lower folder); [by apply post_ret|].
  eapply post_bind with (Q1 := fun _ => True).
  - apply post_try; [|intros e; by apply post_ret].
    eapply post_bind with (Q1 := fun _ => True).
    + apply post_graph_get.
      eapply top_in_range_params; [|apply request_of_params_cases].
      intros v Hv. done.
    + intros resp _. destruct (value resp) as [[|first rest]|];
        try by apply post_ret.
      destruct (item_id first); [by apply post_ret | apply post_raise].
  - intros [endpoint|] _; by apply post_ret.
Qed.

Lemma post_fetch fuel ctx endpoint c ps :
  1 <= c <= 50 -> top_ok ps ->
  post top_in_range (fun l => len l <= 50)
       (graph_get_paginated fuel ctx endpoint c ps).
Proof.
  intros Hc Hps.
  eapply post_weaken; [apply post_graph_get_paginated; [lia|]|].
  - intros rq Hrq. by eapply top_in_range_params.
  - simpl. intros l Hl. lia.
Qed.

Lemma clamp_range count : 1 <= Z.min 50 (Z.max 1 count) <= 50.
Proof. lia. Qed.







End ServerFacts.

(** ** Further properties of the token manager *)

Module AuthMore.

Import Auth AuthFacts.

(** *** The canonical row *)

Lemma foldl_newest_None acc rows :
  foldl newest acc rows = None -> acc = None /\ rows = [].
Proof.
  revert acc. induction rows as [|r rows IH]; intros acc H; simpl in H.
  - done.
  - apply IH in H as [H _]. destruct acc as [b|]; simpl in H; [|done].
    by destruct (created_at b <? created_at r).
Qed.

Lemma foldl_newest_Some rows :
  forall acc r,
    foldl newest acc rows = Some r ->
    (acc = Some r \/ r ∈ rows) /\
    (forall b, acc = Some b -> created_at b <= created_at r) /\
    (forall r', r' ∈ rows -> created_at r' <= created_at r).
Proof.
  induction rows as [|x rows IH]; intros acc r H; simpl in H.
  - subst acc. split; [by left|]. split.
    + by intros b [= ->].
    + intros r' Hr'. by apply elem_of_nil in Hr'.
  - destruct (IH _ _ H) as (Hin & Hacc & Hall).
    assert (Hx : created_at x <= created_at r /\
                 (forall b, acc = Some b -> created_at b <= created_at r)).
    { destruct acc as [b|]; simpl in Hacc.
      - destruct (Z.ltb_spec (created_at b) (created_at x)).
        + specialize (Hacc x eq_refl). split; [lia|]. intros ? [= <-]. lia.
        + specialize (Hacc b eq_refl). split; [lia|]. by intros ? [= <-].
      - specialize (Hacc x eq_refl). split; [lia|done]. }
    destruct Hx as [Hx Hb]. split; [|split; [exact Hb|]].
    + destruct Hin as [Hin|Hin]; [|right; by apply elem_of_cons; right].
      destruct acc as [b|]; simpl in Hin.
      * destruct (created_at b <? created_at x); injection Hin as <-;
          [right; apply elem_of_cons; by left | by left].
      * injection Hin as <-. right. apply elem_of_cons. by left.
    + intros r' Hr'. apply elem_of_cons in Hr' as [->|Hr']; [done|].
      by apply Hall.
Qed.

(** X1. The row [get_token] works on is a row of the table that belongs to
    the user, has provider "microsoft" and is active, and no such row was
    created later. Without such a row there is none. *)
Theorem select_connection_newest user rows :
  match select_connection user rows with
  | Some r =>
      r ∈ rows /\ user_id r = user /\ provider r = "microsoft" /\
      is_active r = true /\
      forall r', r' ∈ rows -> matches user r' = true ->
                 created_at r' <= created_at r
  | None => Forall (fun r => matches user r = false) rows
  end.
Proof.
  unfold select_connection.
  destruct (foldl newest None _) as [r|] eqn:Hsel.
  - apply foldl_newest_Some in Hsel as ([Hin|Hin] & _ & Hmax); [done|].
    apply list_elem_of_filter in Hin as [Hm Hin].
    split; [done|].
    pose proof Hm as Hm'. unfold matches in Hm'.
    apply andb_true_iff in Hm' as [Hm' Hact].
    apply andb_true_iff in Hm' as [Hu Hp].
    apply bool_decide_eq_true in Hu. apply bool_decide_eq_true in Hp.
    repeat split; try done.
    intros r' Hr' Hm2. apply Hmax. by apply list_elem_of_filter.
  - apply foldl_newest_None in Hsel as [_ Hnil].
    apply Forall_forall. intros r Hr.
    destruct (matches user r) eqn:Hm; [|done].
    assert (r ∈ filter (fun r => matches user r = true) rows)
      by by apply list_elem_of_filter.
    rewrite Hnil in H. by apply elem_of_nil in H.
Qed.

Lemma select_connection_no_match user rows :
  Forall (fun r => matches user r = false) rows ->
  select_connection user rows = None.
Proof.
  intros Hall. unfold select_connection.
  replace (filter (fun r => matches user r = true) rows) with (@nil row);
    [done|].
  symmetry. induction Hall as [|r rows Hr _ IH]; [done|].
  rewrite filter_cons. destruct (decide _) as [Hm|]; [congruence|done].
Qed.

(** *** The failing paths *)

Lemma get_token_no_row self user w :
  select_connection user (store w) = None ->
  get_token self user w = (Raise NOT_CONNECTED, locked user w).
Proof.
  intros Hsel. unfold get_token. auth_unfold. simpl. by rewrite Hsel.
Qed.

Lemma get_token_undecryptable self user w r :
  select_connection user (store w) = Some r ->
  decrypt (cipher self) (access_token r) = None \/
  decrypt (cipher self) (refresh_token r) = None ->
  get_token self user w = (Raise DECRYPTION_FAILED, locked user w).
Proof.
  intros Hsel Hdec. unfold get_token. auth_unfold. simpl. rewrite Hsel.
  destruct Hdec as [H|H]; rewrite H; [done|].
  by destruct (decrypt _ (access_token r)).
Qed.

(** X2. When the table has no active "microsoft" row of the user,
    [get_token] fails with status 404; the table is not written and the
    provider is not contacted. Rows of other users or providers and
    deactivated rows do not count. *)
Theorem get_token_not_connected self user w :
  Forall (fun r => matches user r = false) (store w) ->
  fst (get_token self user w) = Raise NOT_CONNECTED /\
  store (snd (get_token self user w)) = store w /\
  idp_log (snd (get_token self user w)) = idp_log w.
Proof.
  intros Hall. apply select_connection_no_match in Hall.
  by rewrite (get_token_no_row _ _ _ Hall).
Qed.

Lemma get_token_not_connected_witness :
  let w := Scenario.at_time 0 [Scenario.conn_inactive 1000] in
  Forall (fun r => matches "u1" r = false) (store w) /\
  fst (get_token Scenario.svc "u1" w) = Raise NOT_CONNECTED.
Proof.
  assert (H : Forall (fun r => matches "u1" r = false)
                (store (Scenario.at_time 0 [Scenario.conn_inactive 1000])))
    by (repeat constructor).
  split; [exact H|].
  apply (get_token_not_connected Scenario.svc "u1" _ H).
Defined.

(** X3. When either token column of the canonical row does not decrypt,
    [get_token] fails with status 500; the table is not written, not even
    [last_used_at], and the provider is not contacted. *)
Theorem get_token_decryption_failed self user w r :
  select_connection user (store w) = Some r ->
  decrypt (cipher self) (access_token r) = None \/
  decrypt (cipher self) (refresh_token r) = None ->
  fst (get_token self user w) = Raise DECRYPTION_FAILED /\
  store (snd (get_token self user w)) = store w /\
  idp_log (snd (get_token self user w)) = idp_log w.
Proof.
  intros Hsel Hdec. by rewrite (get_token_undecryptable _ _ _ _ Hsel Hdec).
Qed.

Lemma get_token_decryption_failed_witness :
  let w := Scenario.at_time 0 [Scenario.conn_corrupted 1000] in
  select_connection "u1" (store w) = Some (Scenario.conn_corrupted 1000) /\
  decrypt Scenario.demo_cipher "garbage" = None /\
  fst (get_token Scenario.svc "u1" w) = Raise DECRYPTION_FAILED.
Proof.
  split; [reflexivity|]. split; [reflexivity|].
  apply (get_token_decryption_failed Scenario.svc "u1"
           (Scenario.at_time 0 [Scenario.conn_corrupted 1000])
           (Scenario.conn_corrupted 1000) eq_refl).
  left. reflexivity.
Defined.

(** *** The path without refresh *)

Lemma get_token_valid_run self user w r a rt :
  select_connection user (store w) = Some r ->
  decrypt (cipher self) (access_token r) = Some a ->
  decrypt (cipher self) (refresh_token r) = Some rt ->
  300 * 1000000 <= remaining r (clock w (ticks w)) ->
  get_token self user w
  = (Ok {| tok_access_token := a; tok_user_id := user;
           tok_expires_at := Some (normalized (expires_at r)) |},
     set_store
       (update_where_id (id r) (with_last_used (clock w (S (ticks w)))))
       (set_ticks (S (S (ticks w))) (locked user w))).
Proof.
  intros Hsel Ha Hrt Hleft.
  rewrite (get_token_found _ _ _ _ _ _ Hsel Ha Hrt).
  destruct (Z.ltb_spec (remaining r (clock w (ticks w))) (300 * 1000000));
    [lia|].
  reflexivity.
Qed.

(** X4. When the canonical row decrypts and has at least 300 seconds left,
    [get_token] returns the decrypted stored access token with the stored
    expiry and does not contact the provider. In the table only
    [last_used_at] changes, on the rows keyed by the canonical id, to the
    time of the update. *)
Theorem get_token_valid self user w r a rt :
  select_connection user (store w) = Some r ->
  decrypt (cipher self) (access_token r) = Some a ->
  decrypt (cipher self) (refresh_token r) = Some rt ->
  300 * 1000000 <= remaining r (clock w (ticks w)) ->
  fst (get_token self user w)
  = Ok {| tok_access_token := a; tok_user_id := user;
          tok_expires_at := Some (normalized (expires_at r)) |} /\
  idp_log (snd (get_token self user w)) = idp_log w /\
  Forall2
    (fun x x' =>
       if bool_decide (id x = id r) then
         last_used_at x' = Some (clock w (S (ticks w))) /\
         access_token x' = access_token x /\
         refresh_token x' = refresh_token x /\
         expires_at x' = expires_at x /\
         updated_at x' = updated_at x /\
         same_identity x x'
       else x' = x)
    (store w) (store (snd (get_token self user w))).
Proof.
  intros Hsel Ha Hrt Hleft.
  rewrite (get_token_valid_run _ _ _ _ _ _ Hsel Ha Hrt Hleft). simpl.
  split; [done|]. split; [done|].
  unfold update_where_id. clear Hsel. generalize (store w) as rows.
  induction rows as [|x rows IH]; simpl; constructor; [|exact IH].
  case_bool_decide; [|done]. repeat split.
Qed.

Lemma get_token_valid_witness :
  let w := Scenario.at_time 699 [Scenario.conn 1000] in
  select_connection "u1" (store w) = Some (Scenario.conn 1000) /\
  300 * 1000000 <= remaining (Scenario.conn 1000) (clock w (ticks w)) /\
  fst (get_token Scenario.svc "u1" w)
  = Ok {| tok_access_token := "old-access"; tok_user_id := "u1";
          tok_expires_at := Some (at_utc (1000 * 1000000)) |}.
Proof.
  split; [reflexivity|]. split; [vm_compute; discriminate|].
  apply (get_token_valid Scenario.svc "u1"
           (Scenario.at_time 699 [Scenario.conn 1000])
           (Scenario.conn 1000) "old-access" "old-refresh"
           eq_refl eq_refl eq_refl).
  vm_compute. discriminate.
Defined.

(** *** The path with refresh *)

(** The ways [_refresh_token] fails on the answer itself, with the world
    it leaves. *)
Lemma refresh_token_no_answer self rt cid w :
  idp w (length (idp_log w)) (refresh_request self rt) = NoResponse ->
  _refresh_token self rt cid w
  = (Raise HTTPError,
     set_idp_log (idp_log w ++ [refresh_request self rt]) w).
Proof. intros H. unfold _refresh_token. auth_unfold. by rewrite H. Qed.

Lemma refresh_token_bad_status self rt cid w s body :
  idp w (length (idp_log w)) (refresh_request self rt) = Response s body ->
  s <> 200 ->
  _refresh_token self rt cid w
  = (Raise REFRESH_FAILED,
     set_idp_log (idp_log w ++ [refresh_request self rt]) w).
Proof.
  intros H Hs. unfold _refresh_token. auth_unfold. rewrite H. simpl.
  by destruct (Z.eqb_spec s 200).
Qed.

(** A failed refresh is the failure of [get_token], in the world the
    refresh left. *)
Lemma get_token_refresh_raises self user w r a rt e w2 :
  select_connection user (store w) = Some r ->
  decrypt (cipher self) (access_token r) = Some a ->
  decrypt (cipher self) (refresh_token r) = Some rt ->
  remaining r (clock w (ticks w)) < 300 * 1000000 ->
  _refresh_token self rt (id r) (set_ticks (S (ticks w)) (locked user w))
  = (Raise e, w2) ->
  get_token self user w = (Raise e, w2).
Proof.
  intros Hsel Ha Hrt Hleft Hrefresh.
  rewrite (get_token_found _ _ _ _ _ _ Hsel Ha Hrt).
  destruct (Z.ltb_spec (remaining r (clock w (ticks w))) (300 * 1000000));
    [|lia].
  unfold bind at 1. unfold locked in Hrefresh. by rewrite Hrefresh.
Qed.

(** X5. When a refresh is due and the provider does not answer with status
    200, [get_token] fails: with the transport exception when there is no
    answer, with status 401 otherwise. The table is left as it was, so
    [last_used_at] is not updated either. *)
Theorem get_token_refresh_failed self user w r a rt :
  select_connection user (store w) = Some r ->
  decrypt (cipher self) (access_token r) = Some a ->
  decrypt (cipher self) (refresh_token r) = Some rt ->
  remaining r (clock w (ticks w)) < 300 * 1000000 ->
  let answer := idp w (length (idp_log w)) (refresh_request self rt) in
  (answer = NoResponse ->
   fst (get_token self user w) = Raise HTTPError /\
   store (snd (get_token self user w)) = store w) /\
  (forall s body,
     answer = Response s body -> s <> 200 ->
     fst (get_token self user w) = Raise REFRESH_FAILED /\
     store (snd (get_token self user w)) = store w).
Proof.
  intros Hsel Ha Hrt Hleft answer. subst answer. split.
  - intros Hno.
    by rewrite (get_token_refresh_raises _ _ _ _ _ _ _ _ Hsel Ha Hrt Hleft
                  (refresh_token_no_answer self rt (id r)
                     (set_ticks (S (ticks w)) (locked user w)) Hno)).
  - intros s body Hresp Hs.
    by rewrite (get_token_refresh_raises _ _ _ _ _ _ _ _ Hsel Ha Hrt Hleft
                  (refresh_token_bad_status self rt (id r)
                     (set_ticks (S (ticks w)) (locked user w)) _ _ Hresp Hs)).
Qed.

Lemma get_token_refresh_failed_witness :
  let w := Scenario.at_time_with Scenario.idp_rejects 900
             [Scenario.conn 1000] in
  remaining (Scenario.conn 1000) (clock w (ticks w)) < 300 * 1000000 /\
  fst (get_token Scenario.svc "u1" w) = Raise REFRESH_FAILED /\
  store (snd (get_token Scenario.svc "u1" w)) = store w.
Proof.
  split; [reflexivity|].
  apply (proj2 (get_token_refresh_failed Scenario.svc "u1"
                  (Scenario.at_time_with Scenario.idp_rejects 900
                     [Scenario.conn 1000])
                  (Scenario.conn 1000) "old-access" "old-refresh"
                  eq_refl eq_refl eq_refl eq_refl) 400 None eq_refl).
  discriminate.
Defined.

(** *** What every call does to the provider and the lock registry *)

Lemma refresh_token_locks self rt cid w :
  locks (snd (_refresh_token self rt cid w)) = locks w.
Proof.
  unfold _refresh_token. auth_unfold.
  destruct (idp w _ _) as [|s j]; simpl; [done|].
  destruct (s =? 200); simpl; [|done].
  destruct j as [d|]; simpl; [|done].
  destruct (data_access_token d); simpl; [|done].
  destruct (dt_add_seconds _ _); simpl; [|done].
  by destruct (naive_expiry_column _ && _).
Qed.

(** The worlds a call can end in, by what changed in them. *)
Lemma get_token_effects self user w :
  let w' := snd (get_token self user w) in
  locks w' = {[ user ]} ∪ locks w /\
  (idp_log w' = idp_log w \/ exists rq, idp_log w' = idp_log w ++ [rq]).
Proof.
  destruct (select_connection user (store w)) as [r|] eqn:Hsel;
    [|rewrite (get_token_no_row _ _ _ Hsel); simpl; auto].
  destruct (decrypt (cipher self) (access_token r)) as [a|] eqn:Ha;
    [|rewrite (get_token_undecryptable _ _ _ _ Hsel (or_introl Ha));
      simpl; auto].
  destruct (decrypt (cipher self) (refresh_token r)) as [rt|] eqn:Hrt;
    [|rewrite (get_token_undecryptable _ _ _ _ Hsel (or_intror Hrt));
      simpl; auto].
  destruct (Z.lt_ge_cases (remaining r (clock w (ticks w))) (300 * 1000000))
    as [Hlt|Hge];
    [|rewrite (get_token_valid_run _ _ _ _ _ _ Hsel Ha Hrt Hge); simpl; auto].
  rewrite (get_token_found _ _ _ _ _ _ Hsel Ha Hrt).
  destruct (Z.ltb_spec (remaining r (clock w (ticks w))) (300 * 1000000));
    [|lia].
  set (w1 := set_ticks _ _).
  pose proof (refresh_token_locks self rt (id r) w1) as Hlocks.
  pose proof (refresh_token_log self rt (id r) w1) as Hlog.
  unfold bind at 1.
  destruct (_refresh_token self rt (id r) w1) as [[acc| |] w2];
    simpl in Hlocks, Hlog |- *; rewrite Hlocks, Hlog; eauto.
Qed.

(** X7. A call of [get_token] sends at most one request to the identity
    provider: a refresh is never retried. *)
Theorem get_token_no_retry self user w :
  idp_log (snd (get_token self user w)) = idp_log w \/
  exists rq, idp_log (snd (get_token self user w)) = idp_log w ++ [rq].
Proof. apply get_token_effects. Qed.

(** X8. Whatever its outcome, a call of [get_token] leaves the lock
    registry with the user's key added and every earlier key kept: locks
    are created on first use and never evicted. *)
Theorem get_token_registers_lock self user w :
  locks (snd (get_token self user w)) = {[ user ]} ∪ locks w.
Proof. apply get_token_effects. Qed.

(** *** Successive calls *)

(** An update that keeps user, provider, active flag and creation time
    does not change which row is canonical. *)
Lemma select_connection_update user cid f rows :
  (forall r, user_id (f r) = user_id r /\ provider (f r) = provider r /\
             is_active (f r) = is_active r /\
             created_at (f r) = created_at r) ->
  select_connection user (update_where_id cid f rows)
  = (fun r => if bool_decide (id r = cid) then f r else r)
      <$> select_connection user rows.
Proof.
  intros Hf. unfold select_connection, update_where_id.
  set (g := fun r => if bool_decide (id r = cid) then f r else r).
  assert (Hm : forall r, matches user (g r) = matches user r).
  { intros r. unfold g, matches.
    destruct (bool_decide (id r = cid)); [|done].
    destruct (Hf r) as (-> & -> & -> & _). done. }
  assert (Hc : forall r, created_at (g r) = created_at r).
  { intros r. unfold g. destruct (bool_decide (id r = cid)); [|done].
    apply Hf. }
  change (foldl newest (g <$> None)
            (filter (fun r => matches user r = true) (map g rows))
          = g <$> foldl newest None
                    (filter (fun r => matches user r = true) rows)).
  generalize (@None row) as acc.
  induction rows as [|x rows IH]; intros acc; [done|].
  simpl map. rewrite !filter_cons, Hm.
  destruct (decide (matches user x = true)); [|apply IH].
  simpl. rewrite <- IH. f_equal.
  destruct acc as [b|]; simpl; [|done].
  rewrite !Hc. by destruct (created_at b <? created_at x).
Qed.

(** X9. Two calls in a row for a token that has at least 300 seconds left
    at both checks return the same access token, and neither contacts the
    provider. *)
Theorem get_token_twice_valid self user w r a rt :
  select_connection user (store w) = Some r ->
  decrypt (cipher self) (access_token r) = Some a ->
  decrypt (cipher self) (refresh_token r) = Some rt ->
  300 * 1000000 <= remaining r (clock w (ticks w)) ->
  300 * 1000000 <= remaining r (clock w (S (S (ticks w)))) ->
  let w1 := snd (get_token self user w) in
  let tok := {| tok_access_token := a; tok_user_id := user;
                tok_expires_at := Some (normalized (expires_at r)) |} in
  fst (get_token self user w) = Ok tok /\
  fst (get_token self user w1) = Ok tok /\
  idp_log (snd (get_token self user w1)) = idp_log w.
Proof.
  intros Hsel Ha Hrt H1 H2 w1 tok. subst w1 tok.
  rewrite (get_token_valid_run _ _ _ _ _ _ Hsel Ha Hrt H1). simpl.
  set (r1 := with_last_used (clock w (S (ticks w))) r).
  set (w1 := set_store _ _).
  assert (Hsel1 : select_connection user (store w1) = Some r1).
  { subst w1. simpl. rewrite select_connection_update by done.
    rewrite Hsel. simpl. by rewrite bool_decide_eq_true_2. }
  rewrite (get_token_valid_run self user w1 r1 a rt Hsel1 Ha Hrt H2).
  done.
Qed.

Lemma get_token_twice_valid_witness :
  let w := Scenario.at_time 100 [Scenario.conn 1000] in
  300 * 1000000 <= remaining (Scenario.conn 1000) (clock w (ticks w)) /\
  idp_log (snd (get_token Scenario.svc "u1"
                  (snd (get_token Scenario.svc "u1" w)))) = [].
Proof.
  split; [vm_compute; discriminate|].
  apply (get_token_twice_valid Scenario.svc "u1"
           (Scenario.at_time 100 [Scenario.conn 1000])
           (Scenario.conn 1000) "old-access" "old-refresh"
           eq_refl eq_refl eq_refl ltac:(vm_compute; discriminate)
           ltac:(vm_compute; discriminate)).
Defined.

(** The world a successful refresh leaves behind [get_token]. *)
Lemma get_token_refreshed_run self user w r a rt d a' :
  select_connection user (store w) = Some r ->
  decrypt (cipher self) (access_token r) = Some a ->
  decrypt (cipher self) (refresh_token r) = Some rt ->
  remaining r (clock w (ticks w)) < 300 * 1000000 ->
  idp w (length (idp_log w)) (refresh_request self rt) = Response 200 (Some d) ->
  data_access_token d = Some a' ->
  expiry_in_range (clock w (S (ticks w))) (default 3600 (data_expires_in d)) ->
  aware_expiries (store w) ->
  let w' := snd (get_token self user w) in
  fst (get_token self user w)
  = Ok {| tok_access_token := a'; tok_user_id := user;
          tok_expires_at := Some (normalized (expires_at r)) |} /\
  store w'
  = update_where_id (id r) (with_last_used (clock w (3 + ticks w)%nat))
      (update_where_id (id r)
         (with_tokens
            (encrypt (cipher self) a')
            (encrypt (cipher self) (default rt (data_refresh_token d)))
            (at_utc (clock w (S (ticks w))
                     + default 3600 (data_expires_in d) * 1000000))
            (clock w (2 + ticks w)%nat))
         (store w)) /\
  clock w' = clock w /\ ticks w' = (4 + ticks w)%nat /\
  idp_log w' = idp_log w ++ [refresh_request self rt].
Proof.
  intros Hsel Ha Hrt Hleft Hresp Hacc Hrange Haware w'.
  pose proof (refresh_token_granted self rt (id r)
                (set_ticks (S (ticks w)) (locked user w)) d a' Hresp Hacc
                Hrange Haware)
    as Hgranted.
  unfold locked in Hgranted.
  assert (Hrun : exists W,
             get_token self user w
             = (Ok {| tok_access_token := a'; tok_user_id := user;
                      tok_expires_at := Some (normalized (expires_at r)) |},
                W) /\
             store W
             = update_where_id (id r)
                 (with_last_used (clock w (3 + ticks w)%nat))
                 (update_where_id (id r)
                    (with_tokens
                       (encrypt (cipher self) a')
                       (encrypt (cipher self)
                                (default rt (data_refresh_token d)))
                       (at_utc (clock w (S (ticks w))
                                + default 3600 (data_expires_in d) * 1000000))
                       (clock w (2 + ticks w)%nat))
                    (store w)) /\
             clock W = clock w /\ ticks W = (4 + ticks w)%nat /\
             idp_log W = idp_log w ++ [refresh_request self rt]).
  { rewrite (get_token_found _ _ _ _ _ _ Hsel Ha Hrt).
    destruct (Z.ltb_spec (remaining r (clock w (ticks w))) (300 * 1000000));
      [|lia].
    unfold bind at 1. rewrite Hgranted.
    eexists. split; [reflexivity|]. repeat split. }
  destruct Hrun as (W & Hrun & HW). subst w'. rewrite Hrun. simpl.
  split; [done|exact HW].
Qed.

(** X6. After a call that refreshed the token, the next call finds the
    refreshed row. The first call must have stored the token: the expiry
    "time of the refresh plus [expires_in]" can be formed and the expiries
    of the table carry a time zone. Provided then that the stored
    ciphertexts decrypt to what was encrypted and that the new expiry is at
    least 300 seconds ahead, the next call returns the new access token
    with the new expiry and does not contact the provider again. *)
Theorem get_token_after_refresh self user w r a rt d a' rt' :
  select_connection user (store w) = Some r ->
  decrypt (cipher self) (access_token r) = Some a ->
  decrypt (cipher self) (refresh_token r) = Some rt ->
  remaining r (clock w (ticks w)) < 300 * 1000000 ->
  idp w (length (idp_log w)) (refresh_request self rt) = Response 200 (Some d) ->
  data_access_token d = Some a' ->
  expiry_in_range (clock w (S (ticks w))) (default 3600 (data_expires_in d)) ->
  aware_expiries (store w) ->
  decrypt (cipher self) (encrypt (cipher self) a') = Some a' ->
  decrypt (cipher self)
          (encrypt (cipher self) (default rt (data_refresh_token d)))
  = Some rt' ->
  let new_expiry :=
    clock w (S (ticks w)) + default 3600 (data_expires_in d) * 1000000 in
  300 * 1000000 <= new_expiry - clock w (4 + ticks w)%nat ->
  let w1 := snd (get_token self user w) in
  fst (get_token self user w1)
  = Ok {| tok_access_token := a'; tok_user_id := user;
          tok_expires_at := Some (at_utc new_expiry) |} /\
  idp_log (snd (get_token self user w1)) = idp_log w1.
Proof.
  intros Hsel Ha Hrt Hleft Hresp Hacc Hrange Haware Hda Hdr new_expiry
         Hnew w1.
  destruct (get_token_refreshed_run _ _ _ _ _ _ _ _ Hsel Ha Hrt Hleft
              Hresp Hacc Hrange Haware)
    as (_ & Hstore & Hclock & Hticks & _).
  fold w1 in Hstore, Hclock, Hticks.
  set (r1 := with_last_used (clock w (3 + ticks w)%nat)
               (with_tokens
                  (encrypt (cipher self) a')
                  (encrypt (cipher self) (default rt (data_refresh_token d)))
                  (at_utc (clock w (S (ticks w))
                           + default 3600 (data_expires_in d) * 1000000))
                  (clock w (2 + ticks w)%nat) r)).
  assert (Hsel1 : select_connection user (store w1) = Some r1).
  { rewrite Hstore. rewrite !select_connection_update by done.
    rewrite Hsel. simpl.
    rewrite (bool_decide_eq_true_2 (id r = id r)) by done. simpl.
    by rewrite (bool_decide_eq_true_2 (id r = id r)) by done. }
  assert (Hleft1 : 300 * 1000000 <= remaining r1 (clock w1 (ticks w1))).
  { rewrite Hclock, Hticks. unfold remaining, r1, normalized, instant.
    subst new_expiry. simpl in Hnew |- *. lia. }
  rewrite (get_token_valid_run self user w1 r1 a' rt' Hsel1 Hda Hdr Hleft1).
  simpl. split; [|done]. reflexivity.
Qed.

Lemma get_token_after_refresh_witness :
  let w := Scenario.at_time 900 [Scenario.conn 1000] in
  let w1 := snd (get_token Scenario.svc "u1" w) in
  remaining (Scenario.conn 1000) (clock w (ticks w)) < 300 * 1000000 /\
  expiry_in_range (clock w (S (ticks w))) 3600 /\
  aware_expiries (store w) /\
  fst (get_token Scenario.svc "u1" w1)
  = Ok {| tok_access_token := "new-access"; tok_user_id := "u1";
          tok_expires_at := Some (at_utc (4500 * 1000000)) |} /\
  idp_log (snd (get_token Scenario.svc "u1" w1)) = idp_log w1.
Proof.
  assert (Hrange : expiry_in_range (900 * 1000000) 3600)
    by (repeat split; vm_compute; discriminate).
  assert (Haware : aware_expiries [Scenario.conn 1000])
    by (repeat constructor; discriminate).
  split; [reflexivity|]. split; [exact Hrange|]. split; [exact Haware|].
  apply (get_token_after_refresh Scenario.svc "u1"
           (Scenario.at_time 900 [Scenario.conn 1000])
           (Scenario.conn 1000) "old-access" "old-refresh"
           {| data_access_token := Some "new-access";
              data_refresh_token := None;
              data_expires_in := Some 3600 |}
           "new-access" "old-refresh"
           eq_refl eq_refl eq_refl eq_refl eq_refl eq_refl Hrange Haware
           eq_refl eq_refl).
  vm_compute. discriminate.
Defined.

End AuthMore.

(** ** Further properties of the request layer *)

Module ServerMore.

Import Server ServerFacts.

(** *** strip_html *)

Lemma has_gt_strip_tags s :
  forall in_tag, has_gt (strip_tags in_tag s) = true -> has_gt s = true.
Proof.
  induction s as [|c s IH]; intros in_tag H; simpl in *; [done|].
  destruct in_tag.
  - apply orb_true_iff. right. destruct (bool_decide (c = chr_gt)); eauto.
  - destruct (bool_decide (c = chr_lt) && has_gt s).
    + apply orb_true_iff. right. eauto.
    + simpl in H. apply orb_true_iff in H as [H|H];
        apply orb_true_iff; eauto.
Qed.

Lemma has_tag_strip_tags s :
  forall in_tag, has_tag (strip_tags in_tag s) = false.
Proof.
  induction s as [|c s IH]; intros in_tag; simpl; [done|].
  destruct in_tag.
  - destruct (bool_decide (c = chr_gt)); apply IH.
  - destruct (bool_decide (c = chr_lt) && has_gt s) eqn:Hopen; [apply IH|].
    simpl. rewrite IH, orb_false_r.
    apply andb_false_iff in Hopen as [->|Hgt]; [done|].
    apply andb_false_iff. right.
    destruct (has_gt (strip_tags false s)) eqn:H; [|done].
    apply has_gt_strip_tags in H. congruence.
Qed.

Lemma strip_tags_no_tag s : has_tag s = false -> strip_tags false s = s.
Proof.
  induction s as [|c s IH]; simpl; [done|]. intros H.
  apply orb_false_iff in H as [-> H]. by rewrite IH.
Qed.

Lemma strip_tags_length s :
  forall in_tag,
    (String.length (strip_tags in_tag s) <= String.length s)%nat.
Proof.
  induction s as [|c s IH]; intros in_tag; simpl; [done|].
  destruct in_tag.
  - destruct (bool_decide (c = chr_gt)); etrans; [apply IH|lia|apply IH|lia].
  - destruct (bool_decide (c = chr_lt) && has_gt s); simpl.
    + etrans; [apply IH|lia].
    + specialize (IH false). lia.
Qed.

Lemma strip_html_strip_tags s : strip_html s = strip_tags false s.
Proof. unfold strip_html. by case_bool_decide; subst. Qed.

(** X10. The result of [strip_html] contains no tag, that is no [<] with a
    [>] somewhere after it; stripping it again changes nothing; and it is
    never longer than the input. *)
Theorem strip_html_no_tag_left html :
  has_tag (strip_html html) = false /\
  strip_html (strip_html html) = strip_html html /\
  (String.length (strip_html html) <= String.length html)%nat.
Proof.
  rewrite !strip_html_strip_tags. split; [apply has_tag_strip_tags|].
  split; [|apply strip_tags_length].
  apply strip_tags_no_tag, has_tag_strip_tags.
Qed.

(** X11. Text without a complete tag is returned as it is; in particular
    a [<] that is never closed stays. *)
Theorem strip_html_plain_text html :
  has_tag html = false -> strip_html html = html.
Proof. rewrite strip_html_strip_tags. apply strip_tags_no_tag. Qed.

Lemma strip_html_plain_text_witness :
  has_tag "if a < b then" = false /\
  strip_html "if a < b then" = "if a < b then".
Proof.
  split; [reflexivity|]. by apply strip_html_plain_text.
Defined.

Example strip_html_nested : strip_html "<p>a <b>bold</b> <<i>> c</p>" = "a bold > c".
Proof. reflexivity. Qed.

(** *** resolve_folder *)

Lemma issued_same w : issued w w = [].
Proof. unfold issued. apply drop_all. Qed.

Lemma resolve_folder_known ctx folder w :
  folder = "" \/ is_Some (WELL_KNOWN_FOLDERS !! lower folder) ->
  resolve_folder ctx folder w
  = (Ok (default INBOX (WELL_KNOWN_FOLDERS !! lower folder)), w).
Proof.
  intros Hknown. unfold resolve_folder.
  case_bool_decide as Hempty; [by subst|].
  destruct Hknown as [?|[endpoint Hep]]; [done|]. by rewrite Hep.
Qed.

(** The lookup of a folder that is not well known. *)
Lemma resolve_folder_lookup ctx folder w :
  folder <> "" ->
  WELL_KNOWN_FOLDERS !! lower folder = None ->
  resolve_folder ctx folder w
  = if truthy (get_state ctx "microsoft_token") then
      (Ok (custom_endpoint
             (graph w (length (http_log w))
                    (request_of ctx "me/mailFolders" (folder_lookup folder)))),
       {| graph := graph w;
          http_log := http_log w
                      ++ [request_of ctx "me/mailFolders"
                                     (folder_lookup folder)];
          calls := calls w ++ [("me/mailFolders", folder_lookup folder)] |})
    else
      (Ok INBOX,
       {| graph := graph w; http_log := http_log w;
          calls := calls w ++ [("me/mailFolders", folder_lookup folder)] |}).
Proof.
  intros Hne Hunknown. unfold resolve_folder.
  rewrite bool_decide_eq_false_2 by done. rewrite Hunknown.
  fold (folder_lookup folder).
  unfold bind at 1. unfold try_except. unfold bind at 1.
  destruct (truthy (get_state ctx "microsoft_token")) eqn:Htok.
  - rewrite (graph_get_bound _ _ _ _ Htok).
    set (resp := graph w _ _). unfold custom_endpoint.
    pose proof (verdict_page resp) as Hv.
    destruct (page_of resp) as [body|].
    + rewrite Hv. destruct body as [[[|first rest]|] next]; simpl; try done.
      by destruct (item_id first).
    + destruct Hv as [e ->]. done.
  - by rewrite (graph_get_unbound _ _ _ _ Htok).
Qed.

(** X12. [resolve_folder] never fails and sends at most one request. For
    the empty name and for the well-known names, in any letter case, it
    sends none and needs no token: the empty name is the inbox. *)
Theorem resolve_folder_never_fails ctx folder w :
  (exists endpoint, fst (resolve_folder ctx folder w) = Ok endpoint) /\
  (length (issued w (snd (resolve_folder ctx folder w))) <= 1)%nat /\
  (folder = "" \/ is_Some (WELL_KNOWN_FOLDERS !! lower folder) ->
   resolve_folder ctx folder w
   = (Ok (default INBOX (WELL_KNOWN_FOLDERS !! lower folder)), w)).
Proof.
  split; [|split]; [| |apply resolve_folder_known].
  - destruct (resolve_folder_total ctx folder w) as (endpoint & w0 & ->).
    by exists endpoint.
  - destruct (decide (folder = "")) as [Hempty|Hne].
    { rewrite resolve_folder_known by auto. simpl. rewrite issued_same. simpl. lia. }
    destruct (WELL_KNOWN_FOLDERS !! lower folder) as [endpoint|] eqn:Hwk.
    { rewrite resolve_folder_known by (rewrite Hwk; eauto). simpl.
      rewrite issued_same. simpl. lia. }
    rewrite (resolve_folder_lookup _ _ _ Hne Hwk).
    destruct (truthy _); unfold issued; simpl.
    + rewrite drop_app_length. simpl. lia.
    + rewrite drop_all. simpl. lia.
Qed.

Lemma resolve_folder_never_fails_witness :
  let w := Scenario.always Scenario.last_page in
  is_Some (WELL_KNOWN_FOLDERS !! lower "SENT") /\
  resolve_folder Scenario.anonymous "SENT" w
  = (Ok "me/mailFolders/sentItems/messages", w).
Proof.
  assert (H : is_Some (WELL_KNOWN_FOLDERS !! lower "SENT"))
    by (vm_compute; eauto).
  split; [exact H|].
  apply (proj2 (proj2 (resolve_folder_never_fails Scenario.anonymous "SENT"
                         (Scenario.always Scenario.last_page)))).
  right. exact H.
Defined.

(** X13. For any other ASCII name with a bound token [resolve_folder]
    sends one lookup, filtered on the display name as typed. The folder is
    the first item of the answer when that item has an id; an answer that
    is an error of any status, an empty page or an item without id gives
    the inbox, as does a missing token, for which nothing is sent. *)
Theorem resolve_folder_custom ctx folder w :
  ascii_only folder = true ->
  folder <> "" ->
  WELL_KNOWN_FOLDERS !! lower folder = None ->
  let rq := request_of ctx "me/mailFolders" (folder_lookup folder) in
  let r := resolve_folder ctx folder w in
  (token_bound ctx ->
   fst r = Ok (custom_endpoint (graph w (length (http_log w)) rq)) /\
   issued w (snd r) = [rq]) /\
  (~ token_bound ctx -> fst r = Ok INBOX /\ issued w (snd r) = []).
Proof.
  intros _ Hne Hwk rq r. subst r.
  rewrite (resolve_folder_lookup _ _ _ Hne Hwk). unfold token_bound.
  destruct (truthy _); split; intros H; try done; unfold issued; simpl.
  - by rewrite drop_app_length.
  - by rewrite drop_all.
Qed.

Lemma resolve_folder_custom_witness :
  let w := Scenario.always (Response 401 None) in
  ascii_only "Projects" = true /\
  "Projects" <> "" /\ WELL_KNOWN_FOLDERS !! lower "Projects" = None /\
  token_bound Scenario.signed_in /\
  fst (resolve_folder Scenario.signed_in "Projects" w) = Ok INBOX.
Proof.
  assert (Htok : token_bound Scenario.signed_in) by (vm_compute; reflexivity).
  assert (Hwk : WELL_KNOWN_FOLDERS !! lower "Projects" = None)
    by (vm_compute; reflexivity).
  split; [reflexivity|].
  split; [discriminate|]. split; [exact Hwk|]. split; [exact Htok|].
  apply (proj1 (resolve_folder_custom Scenario.signed_in "Projects"
                  (Scenario.always (Response 401 None))
                  eq_refl ltac:(discriminate) Hwk) Htok).
Defined.

(** *** Bounds of graph_get_paginated *)

(** X14. [graph_get_paginated] returns at most [max_count] items, whatever
    the remote sends; for [max_count <= 0] it returns the empty list and
    sends nothing. *)
Theorem graph_get_paginated_bound fuel ctx endpoint max_count ps w :
  (max_count <= 0 ->
   graph_get_paginated fuel ctx endpoint max_count ps w = (Ok [], w)) /\
  (forall l,
     fst (graph_get_paginated fuel ctx endpoint max_count ps w) = Ok l ->
     len l <= Z.max 0 max_count).
Proof.
  assert (Hzero : max_count <= 0 ->
            graph_get_paginated fuel ctx endpoint max_count ps w = (Ok [], w)).
  { intros Hmax. unfold graph_get_paginated. st_unfold.
    destruct fuel; simpl;
      (destruct (Z.ltb_spec (len (@nil item)) max_count) as [H|_];
         [unfold len in H; simpl in H; lia|]); simpl;
      unfold slice_to; destruct (max_count <? 0); by rewrite take_nil. }
  split; [exact Hzero|]. intros l Hl.
  destruct (Z.le_gt_cases max_count 0) as [Hle|Hgt].
  - rewrite (Hzero Hle) in Hl. injection Hl as <-. unfold len. simpl. lia.
  - destruct (post_graph_get_paginated (fun _ => True) fuel ctx endpoint
                max_count ps ltac:(lia) ltac:(done) w) as [_ Hq].
    specialize (Hq l Hl). simpl in Hq. lia.
Qed.

Lemma graph_get_paginated_bound_witness :
  let w := Scenario.always Scenario.page_with_link in
  0 <= 0 /\
  graph_get_paginated 5 Scenario.signed_in "me/messages" 0 [] w = (Ok [], w).
Proof.
  split; [lia|].
  apply (proj1 (graph_get_paginated_bound 5 Scenario.signed_in "me/messages"
                  0 [] (Scenario.always Scenario.page_with_link))).
  lia.
Defined.

(** *** The parameters of the search tiers *)

Lemma dict_get_set_eq k v d : dict_get k (dict_set k v d) = Some v.
Proof.
  induction d as [|[k0 v0] d IH]; simpl.
  - by rewrite bool_decide_eq_true_2.
  - case_bool_decide as Hk; simpl.
    + by rewrite bool_decide_eq_true_2.
    + by rewrite bool_decide_eq_false_2.
Qed.

Ltac split_terms query from_address subject :=
  destruct query as [query|]; [destruct (decide (query = "")); [subst|]|];
  (destruct subject as [subject|];
     [destruct (decide (subject = "")); [subst|]|]);
  (destruct from_address as [from_address|];
     [destruct (decide (from_address = "")); [subst|]|]);
  unfold truthy; simpl;
  rewrite ?bool_decide_eq_true_2, ?bool_decide_eq_false_2 by done; simpl.

(** X15. The combined search sets [$filter] exactly when [has_attachments]
    or [unread_only] is [True], and [$search] exactly when one of the three
    terms is non-empty. The single-term searches and the final fetch never
    set [$filter]: the two flags act on the combined search only. With no
    term and no flag the combined search is the final fetch. *)
Theorem search_filter_only_combined count query from_address subject
    has_attachments unread_only :
  let combined := combined_params count query from_address subject
                                  has_attachments unread_only in
  (dict_get "$filter" combined = None <->
   has_attachments <> Some true /\ unread_only <> Some true) /\
  (dict_get "$search" combined = None <->
   truthy query = false /\ truthy subject = false /\
   truthy from_address = false) /\
  (forall term_name term_value,
     dict_get "$filter" (fallback_params count term_name term_value) = None) /\
  dict_get "$filter" (base_params count) = None /\
  (dict_get "$filter" combined = None -> dict_get "$search" combined = None ->
   combined = base_params count).
Proof.
  intros combined. subst combined. unfold combined_params.
  split; [|split; [|split; [done|split; [done|]]]].
  - destruct has_attachments as [[|]|], unread_only as [[|]|]; simpl;
      rewrite ?dict_get_set_eq;
      try (split; [done | intros [? ?]; done]);
      (split; [intros _; done|intros _]);
      repeat match goal with
             | |- context [ match ?l with [] => _ | _ :: _ => _ end ] =>
                 destruct l
             end;
      rewrite ?dict_get_set_ne by done; done.
  - assert (Hfilter : forall (fs : list string) d,
              dict_get "$search"
                match fs with
                | [] => d
                | _ :: _ => dict_set "$filter" (PStr (join " and " fs)) d
                end
              = dict_get "$search" d).
    { intros [|f fs] d; [done|]. by rewrite dict_get_set_ne. }
    rewrite Hfilter.
    split_terms query from_address subject;
      rewrite ?dict_get_set_eq; split; try done; intros (? & ? & ?); done.
  - assert (Hfilter : forall (fs : list string) d,
              dict_get "$filter"
                match fs with
                | [] => d
                | _ :: _ => dict_set "$filter" (PStr (join " and " fs)) d
                end = None -> fs = []).
    { intros [|f fs] d; [done|]. by rewrite dict_get_set_eq. }
    assert (Hsearch : forall (ts : list string) fs,
              dict_get "$search"
                match fs with
                | [] =>
                    match ts with
                    | [] => base_params count
                    | _ :: _ =>
                        dict_set "$search" (PStr (join " " ts))
                                 (base_params count)
                    end
                | _ :: _ =>
                    dict_set "$filter" (PStr (join " and " fs))
                      match ts with
                      | [] => base_params count
                      | _ :: _ =>
                          dict_set "$search" (PStr (join " " ts))
                                   (base_params count)
                      end
                end = None -> ts = []).
    { intros [|t ts] fs; [done|].
      destruct fs; rewrite ?dict_get_set_ne by done;
        by rewrite dict_get_set_eq. }
    intros Hf Hs. apply Hfilter in Hf. apply Hsearch in Hs.
    by rewrite Hf, Hs.
Qed.

Lemma search_filter_only_combined_witness :
  dict_get "$filter"
    (combined_params 10 (Some "budget") None None (Some false) None) = None.
Proof.
  apply (proj1 (search_filter_only_combined 10 (Some "budget") None None
                  (Some false) None)).
  split; discriminate.
Defined.

(** *** Empty search results *)

Lemma post_individual_terms_hit fuel ctx endpoint c terms :
  1 <= c <= 50 ->
  post top_in_range
       (fun o => forall hit, o = Some hit -> fst hit <> [])
       (individual_terms fuel ctx endpoint c terms).
Proof.
  intros Hc.
  induction terms as [|[term_name term_value] terms IH]; simpl.
  { by apply post_ret. }
  destruct (truthy term_value); [|exact IH].
  eapply post_bind
    with (Q1 := fun o => forall hit, o = Some hit -> fst hit <> []).
  - apply post_try; [|intros e; by apply post_ret].
    eapply post_bind; [apply post_fetch; [done|by apply top_ok_fallback]|].
    intros emails _. destruct emails; apply post_ret; [done|].
    by intros hit [= <-].
  - intros [hit|] Hhit; [|exact IH].
    apply post_ret. intros hit' [= <-]. by apply Hhit.
Qed.

(** X21. [search_emails] hands an empty list of emails to the formatting
    only under the label of the final fetch: a search that reports no
    emails has run the unfiltered fetch and found the folder empty. *)
Theorem search_empty_only_from_final fuel ctx query folder from_address
    subject has_attachments unread_only count w found :
  fst (search_emails_found fuel ctx query folder from_address subject
         has_attachments unread_only count w) = Ok found ->
  fst found = [] ->
  snd found = "recent emails fallback".
Proof.
  revert w found.
  cut (post top_in_range
         (fun found => fst found = [] -> snd found = "recent emails fallback")
         (search_emails_found fuel ctx query folder from_address subject
            has_attachments unread_only count)).
  { intros Hpost w found Hrun. by apply (Hpost w). }
  unfold search_emails_found.
  pose proof (clamp_range count) as Hc.
  eapply post_bind; [apply post_resolve_folder|]. intros endpoint _.
  eapply post_bind
    with (Q1 := fun o => forall hit, o = Some hit -> fst hit <> []).
  - apply post_try; [|intros e; by apply post_ret].
    eapply post_bind; [apply post_fetch; [done|by apply top_ok_combined]|].
    intros emails _. destruct emails; apply post_ret; [done|].
    by intros hit [= <-].
  - intros [hit|] Hhit.
    { apply post_ret. intros Hnil. by apply Hhit in Hnil. }
    eapply post_bind; [by apply post_individual_terms_hit|].
    intros [hit|] Hhit'.
    { apply post_ret. intros Hnil. by apply Hhit' in Hnil. }
    eapply post_bind; [apply post_fetch; [done|by apply top_ok_base]|].
    intros emails _. by apply post_ret.
Qed.

Lemma search_empty_only_from_final_witness :
  let w := Scenario.always
             (Response 200 (Some {| value := Some []; nextLink := None |})) in
  fst (search_emails_found 1 Scenario.signed_in (Some "budget") "inbox" None
         None None None 10 w) = Ok ([], "recent emails fallback").
Proof.
  intros w.
  assert (Hrun : exists label,
             fst (search_emails_found 1 Scenario.signed_in (Some "budget")
                    "inbox" None None None None 10 w) = Ok ([], label))
    by (eexists; vm_compute; reflexivity).
  destruct Hrun as [label Hrun]. rewrite Hrun. f_equal. f_equal.
  exact (search_empty_only_from_final _ _ _ _ _ _ _ _ _ _ _ Hrun eq_refl).
Defined.

(** *** read_email *)

(** X16. [read_email] lets only [ToolError] out. With an empty id it fails
    before anything is sent. The [ToolError]s of [graph_get] pass through
    unchanged: a missing token, status 401, and any other status from 400
    on, which is reported with its number and never as an invalid id. *)
Theorem read_email_errors str_of ctx email_id w :
  let r := read_email_fetch str_of ctx email_id w in
  (forall e, fst r = Raise e -> exists message, e = ToolError message) /\
  (email_id = "" ->
   r = (Raise (ToolError "Email ID is required."), w)) /\
  (email_id <> "" -> ~ token_bound ctx -> fst r = Raise AuthMissing) /\
  (email_id <> "" -> token_bound ctx ->
   forall s body,
     graph w (length (http_log w))
           (request_of ctx ("me/messages/" +:+ email_id)
                       [("$select", PStr email_detail_fields)])
     = Response s body ->
     400 <= s ->
     fst r = Raise (if s =? 401 then ReauthNeeded else UpstreamError s)).
Proof.
  intros r. subst r. unfold read_email_fetch.
  case_bool_decide as Hid; [subst; repeat split; try done|].
  { intros e [= <-]. eauto. }
  unfold try_except.
  destruct (truthy (get_state ctx "microsoft_token")) eqn:Htok.
  - rewrite (graph_get_bound _ _ _ _ Htok).
    set (resp := graph w _ _).
    split; [|split; [done|split; [intros _ H; by destruct H|]]].
    + intros e. destruct resp as [|s [b|]]; simpl.
      * destruct (contains _ _); intros [= <-]; eauto.
      * destruct (s =? 401); [intros [= <-]; eauto|].
        destruct (400 <=? s); [intros [= <-]; eauto|done].
      * destruct (s =? 401); [intros [= <-]; eauto|].
        destruct (400 <=? s); [intros [= <-]; eauto|].
        destruct (contains _ _); intros [= <-]; eauto.
    + intros _ _ s body Hresp Hs. rewrite Hresp. simpl.
      destruct (s =? 401); [done|].
      by destruct (Z.leb_spec 400 s); [|lia].
  - rewrite (graph_get_unbound _ _ _ _ Htok). simpl.
    split; [intros e [= <-]; eauto|].
    split; [done|]. split; [done|].
    intros _ H. unfold token_bound in H. congruence.
Qed.

Lemma read_email_errors_witness :
  let w := Scenario.always (Response 404 None) in
  "AAMk" <> "" /\ token_bound Scenario.signed_in /\
  fst (read_email_fetch (fun _ => "") Scenario.signed_in "AAMk" w)
  = Raise (UpstreamError 404).
Proof.
  assert (Htok : token_bound Scenario.signed_in) by (vm_compute; reflexivity).
  split; [discriminate|]. split; [exact Htok|].
  apply (proj2 (proj2 (proj2
           (read_email_errors (fun _ => "") Scenario.signed_in "AAMk"
              (Scenario.always (Response 404 None)))))
           ltac:(discriminate) Htok 404 None eq_refl).
  lia.
Defined.

(** X17. With a bound token and a non-empty id [read_email] sends one
    request, for the message of that id with the detail fields selected,
    and a status below 400 with a JSON body gives that body. A failure of
    the transport or of the JSON decoding is reported as a [ToolError]
    that quotes the text of the exception. *)
Theorem read_email_request str_of ctx email_id w :
  email_id <> "" ->
  token_bound ctx ->
  let rq := {| url := GRAPH_BASE_URL +:+ "/me/messages/" +:+ email_id;
               authorization :=
                 "Bearer " +:+ default "" (get_state ctx "microsoft_token");
               params := Some [("$select", PStr email_detail_fields)];
               timeout := 30 |} in
  let r := read_email_fetch str_of ctx email_id w in
  issued w (snd r) = [rq] /\
  match graph w (length (http_log w)) rq with
  | Response s (Some body) => s < 400 -> fst r = Ok body
  | Response s None =>
      s < 400 ->
      exists message,
        fst r = Raise (ToolError message) /\
        (message = "Invalid email ID or email not found in your mailbox." \/
         message = "Failed to read email: " +:+ str_of JSONDecodeError)
  | NoResponse =>
      exists message,
        fst r = Raise (ToolError message) /\
        (message = "Invalid email ID or email not found in your mailbox." \/
         message = "Failed to read email: " +:+ str_of HTTPError)
  end.
Proof.
  intros Hid Htok rq r.
  assert (Hrq : request_of ctx ("me/messages/" +:+ email_id)
                  [("$select", PStr email_detail_fields)] = rq).
  { unfold request_of, rq. reflexivity. }
  subst r. unfold read_email_fetch.
  rewrite bool_decide_eq_false_2 by done. unfold try_except.
  rewrite (graph_get_bound _ _ _ _ Htok), Hrq.
  split.
  - destruct (verdict _) as [b|e|]; [| |]; unfold issued.
    + simpl. by rewrite drop_app_length.
    + destruct e; try destruct (contains _ _); simpl;
        by rewrite drop_app_length.
    + simpl. by rewrite drop_app_length.
  - destruct (graph w _ rq) as [|s [body|]]; simpl.
    + destruct (contains _ _); eauto.
    + intros Hs. destruct (Z.eqb_spec s 401); [lia|].
      by destruct (Z.leb_spec 400 s); [lia|].
    + intros Hs. destruct (Z.eqb_spec s 401); [lia|].
      destruct (Z.leb_spec 400 s); [lia|].
      destruct (contains _ _); eauto.
Qed.

Lemma read_email_request_witness :
  let w := Scenario.always Scenario.last_page in
  "AAMk" <> "" /\ token_bound Scenario.signed_in /\
  length (issued w (snd (read_email_fetch (fun _ => "") Scenario.signed_in
                           "AAMk" w))) = 1%nat.
Proof.
  assert (Htok : token_bound Scenario.signed_in) by (vm_compute; reflexivity).
  split; [discriminate|]. split; [exact Htok|].
  rewrite (proj1 (read_email_request (fun _ => "") Scenario.signed_in "AAMk"
                    (Scenario.always Scenario.last_page)
                    ltac:(discriminate) Htok)).
  reflexivity.
Defined.

End ServerMore.

(** ** Properties of the authentication middleware *)

Module MiddlewareFacts.

Import Middleware.

(** The context the tool sees after a successful authentication. *)
Lemma authenticate_run str_of self headers ctx wa :
  authenticate str_of self headers ctx wa
  = if truthy (header_user_id headers) then
      let user := default "" (header_user_id headers) in
      match Auth.get_token self user wa with
      | (Ok token, wa') =>
          (Ok (<["microsoft_token" := Auth.tok_access_token token]>
                 (<["user_id" := user]> ctx)), wa')
      | (Raise (TokenServiceError message _), wa') =>
          (Raise (ToolError message), wa')
      | (Raise (ToolError message), wa') => (Raise (ToolError message), wa')
      | (Raise e, wa') =>
          (Raise (ToolError ("Authentication failed: " +:+ str_of e)), wa')
      | (OutOfFuel, wa') => (OutOfFuel, wa')
      end
    else (Raise (ToolError NO_USER_ID), wa).
Proof.
  unfold authenticate. st_unfold.
  destruct (truthy (header_user_id headers)); simpl; [|done].
  destruct (Auth.get_token self _ wa) as [[token|e|] wa']; [done| |done].
  by destruct e.
Qed.

Lemma on_call_tool_run {A} str_of self headers ctx
    (call_next : gmap string string -> ST Server.world A) wa ws :
  on_call_tool str_of self headers ctx call_next (wa, ws)
  = match authenticate str_of self headers ctx wa with
    | (Ok ctx', wa') =>
        (fst (call_next ctx' ws), (wa', snd (call_next ctx' ws)))
    | (Raise e, wa') => (Raise e, (wa', ws))
    | (OutOfFuel, wa') => (OutOfFuel, (wa', ws))
    end.
Proof.
  unfold on_call_tool, bind, lift_auth, lift_server. simpl.
  destruct (authenticate _ _ _ _ wa) as [[ctx'| |] wa']; simpl; try done.
  by destruct (call_next ctx' ws).
Qed.

(** X18. A call without a user id header, or with an empty one, is
    rejected with a [ToolError] before anything is touched: no lock, no
    query, no request, and the tool is not run. Whenever the middleware
    fails, it fails with a [ToolError] and the tool is not run. *)
Theorem on_call_tool_rejects {A} str_of self headers ctx
    (call_next : gmap string string -> ST Server.world A) wa ws :
  let r := on_call_tool str_of self headers ctx call_next (wa, ws) in
  (truthy (header_user_id headers) = false ->
   r = (Raise (ToolError NO_USER_ID), (wa, ws))) /\
  (forall e,
     fst (authenticate str_of self headers ctx wa) = Raise e ->
     (exists message, e = ToolError message) /\
     fst r = Raise e /\ snd (snd r) = ws).
Proof.
  intros r. subst r. rewrite on_call_tool_run, authenticate_run. split.
  - by intros ->.
  - intros e. destruct (truthy (header_user_id headers)); simpl.
    + destruct (Auth.get_token self _ wa) as [[token|e'|] wa']; simpl;
        [done| |done].
      destruct e'; simpl; intros [= <-]; eauto.
    + intros [= <-]. eauto.
Qed.

Lemma on_call_tool_rejects_witness :
  let headers : gmap string string := {[ "x-user-id" := "" ]} in
  let wa := Scenario.at_time 0 [Scenario.conn 1000] in
  let ws := Scenario.always Scenario.last_page in
  truthy (header_user_id headers) = false /\
  on_call_tool (fun _ => "") Scenario.svc headers ∅
    (fun c => Server.list_emails 1 c "inbox" 10) (wa, ws)
  = (Raise (ToolError NO_USER_ID), (wa, ws)).
Proof.
  split; [vm_compute; reflexivity|].
  apply (proj1 (on_call_tool_rejects (fun _ => "") Scenario.svc
                  {[ "x-user-id" := "" ]} ∅
                  (fun c => Server.list_emails 1 c "inbox" 10)
                  (Scenario.at_time 0 [Scenario.conn 1000])
                  (Scenario.always Scenario.last_page))).
  vm_compute. reflexivity.
Defined.

(** X19. A [TokenServiceError] of the token manager reaches the caller as
    a [ToolError] with the same message and without the status code. Any
    other failure of the token manager is reported as "Authentication
    failed: " followed by the text of the exception. *)
Theorem on_call_tool_translates {A} str_of self headers ctx
    (call_next : gmap string string -> ST Server.world A) wa ws e :
  truthy (header_user_id headers) = true ->
  fst (Auth.get_token self (default "" (header_user_id headers)) wa)
  = Raise e ->
  fst (on_call_tool str_of self headers ctx call_next (wa, ws))
  = Raise (ToolError
             match e with
             | TokenServiceError message _ => message
             | ToolError message => message
             | _ => "Authentication failed: " +:+ str_of e
             end).
Proof.
  intros Hhdr Hfail. rewrite on_call_tool_run, authenticate_run, Hhdr.
  simpl. destruct (Auth.get_token self _ wa) as [[token|e'|] wa'];
    simpl in Hfail; [done| |done].
  injection Hfail as ->. by destruct e.
Qed.

Lemma on_call_tool_translates_witness :
  let headers : gmap string string := {[ "x-user-id" := "u1" ]} in
  let wa := Scenario.at_time 0 [Scenario.conn_inactive 1000] in
  let ws := Scenario.always Scenario.last_page in
  truthy (header_user_id headers) = true /\
  fst (on_call_tool (fun _ => "") Scenario.svc headers ∅
         (fun c => Server.list_emails 1 c "inbox" 10) (wa, ws))
  = Raise (ToolError
      "No Microsoft connection found. Please connect your Outlook account.").
Proof.
  split; [vm_compute; reflexivity|].
  apply (on_call_tool_translates (fun _ => "") Scenario.svc
           {[ "x-user-id" := "u1" ]} ∅
           (fun c => Server.list_emails 1 c "inbox" 10)
           (Scenario.at_time 0 [Scenario.conn_inactive 1000])
           (Scenario.always Scenario.last_page) Auth.NOT_CONNECTED);
    vm_compute; reflexivity.
Defined.

(** X20. When the token manager returns a token, the tool runs in a
    context that binds it: a [graph_get] of the tool sends exactly one
    request, whose bearer is the access token [get_token] returned, unless
    that token is the empty string. The credential store is left as
    [get_token] left it. *)
Theorem on_call_tool_binds_token str_of self headers ctx endpoint ps
    wa ws token wa' :
  truthy (header_user_id headers) = true ->
  Auth.get_token self (default "" (header_user_id headers)) wa
  = (Ok token, wa') ->
  Auth.tok_access_token token <> "" ->
  let r := on_call_tool str_of self headers ctx
             (fun c => Server.graph_get c endpoint ps) (wa, ws) in
  fst (snd r) = wa' /\
  exists rq,
    Server.issued ws (snd (snd r)) = [rq] /\
    Server.authorization rq = "Bearer " +:+ Auth.tok_access_token token /\
    fst r = Server.verdict
              (Server.graph ws (length (Server.http_log ws)) rq).
Proof.
  intros Hhdr Hget Hne r. subst r.
  rewrite on_call_tool_run, authenticate_run, Hhdr. simpl. rewrite Hget.
  set (ctx' := <["microsoft_token" := _]> _).
  assert (Hstate : Server.get_state ctx' "microsoft_token"
                   = Some (Auth.tok_access_token token)).
  { unfold Server.get_state, ctx'. apply lookup_insert_eq. }
  assert (Htok : Server.token_bound ctx').
  { unfold Server.token_bound. rewrite Hstate. simpl.
    by rewrite bool_decide_eq_false_2. }
  rewrite (ServerFacts.graph_get_bound _ _ _ _ Htok). simpl.
  split; [done|]. exists (Server.request_of ctx' endpoint ps).
  split; [|split; [|done]].
  - unfold Server.issued. simpl. by rewrite drop_app_length.
  - simpl. by rewrite Hstate.
Qed.

Lemma on_call_tool_binds_token_witness :
  let headers : gmap string string := {[ "X-User-ID" := "u1" ]} in
  let wa := Scenario.at_time 100 [Scenario.conn 1000] in
  let ws := Scenario.always Scenario.last_page in
  truthy (header_user_id headers) = true /\
  exists rq,
    Server.issued ws
      (snd (snd (on_call_tool (fun _ => "") Scenario.svc headers ∅
                   (fun c => Server.graph_get c "me/messages" []) (wa, ws))))
    = [rq] /\
    Server.authorization rq = "Bearer old-access".
Proof.
  split; [vm_compute; reflexivity|].
  destruct (on_call_tool_binds_token (fun _ => "") Scenario.svc
              {[ "X-User-ID" := "u1" ]} ∅ "me/messages" []
              (Scenario.at_time 100 [Scenario.conn 1000])
              (Scenario.always Scenario.last_page)
              {| Auth.tok_access_token := "old-access";
                 Auth.tok_user_id := "u1";
                 Auth.tok_expires_at := Some (Auth.at_utc (1000 * 1000000)) |}
              (snd (Auth.get_token Scenario.svc "u1"
                      (Scenario.at_time 100 [Scenario.conn 1000]))))
    as (_ & rq & Hrq & Hauth & _).
  - vm_compute. reflexivity.
  - vm_compute. reflexivity.
  - discriminate.
  - exists rq. split; [exact Hrq|exact Hauth].
Defined.

End MiddlewareFacts.
